(** * The Z3 bridge of STOKE: [src/solver/z3solver.cc]

    A shallow embedding of [split_constraints], [Z3Solver::is_sat], the
    [ExprConverter] visitor and the three model decoders, together with the
    properties that the design document states about them.

    Conventions of the embedding.
    - The symbolic term algebra ([SymBool], [SymBitVector], [SymArray]) has one
      constructor per node class that the converter visits; the fields carry
      the names they have in the C++ classes.
    - A Z3 term is an application of a declaration kind to arguments, as the
      Z3 API presents it ([Z3_get_decl_kind], [arg(i)]).
    - [assert] is live (a build without NDEBUG): a failed assertion halts the
      program, which is the [Halt] outcome.  Reading an uninitialised local,
      indexing a vector out of range, dereferencing the null model handle
      and [delete] of what did not come from [new] are undefined in C++ and
      are [Halt] outcomes as well, and so is an exception that leaves the
      function.
    - The operands of a call are lowered from left to right; C++ leaves the
      order to the compiler, which decides the order in which the derived
      constraints are pushed, never which ones are.
    - Collaborators whose code lives elsewhere (the type checker, the axiom
      visitor, node widths, the printer of constraints, Z3 itself) are section
      variables.
    - [SymMemoVisitor] caches the term of a node by pointer.  Terms are trees
      here, so a shared node is lowered once per occurrence; this changes how
      often a derived constraint is pushed, never which ones are. *)

From Stdlib Require Import ZArith List Bool Lia.
From stdpp Require Import base gmap strings pretty.

Local Open Scope string_scope.
Local Open Scope list_scope.
Local Open Scope Z_scope.

(** ** The symbolic term algebra *)

(** [SymFunction]: the signature of an uninterpreted function. *)
Record SymFunction := {
  name : string;
  args : list Z;
  return_type : Z
}.

(** One bound variable of a [SymBoolForAll] (a [SymBitVectorVar] by value). *)
Record SymVar := {
  name_ : string;
  size_ : Z
}.

Inductive SymBitVector : Type :=
| SymBitVectorAnd (a_ b_ : SymBitVector)
| SymBitVectorConcat (a_ b_ : SymBitVector)
| SymBitVectorConstant (size_ : Z) (constant_ : Z)
| SymBitVectorDiv (a_ b_ : SymBitVector)
| SymBitVectorExtract (bv_ : SymBitVector) (high_bit_ low_bit_ : Z)
| SymBitVectorFunction (f_ : SymFunction) (args_ : SymArgs)
| SymBitVectorIte (cond_ : SymBool) (a_ b_ : SymBitVector)
| SymBitVectorMinus (a_ b_ : SymBitVector)
| SymBitVectorMod (a_ b_ : SymBitVector)
| SymBitVectorMult (a_ b_ : SymBitVector)
| SymBitVectorNot (bv_ : SymBitVector)
| SymBitVectorOr (a_ b_ : SymBitVector)
| SymBitVectorPlus (a_ b_ : SymBitVector)
| SymBitVectorRotateLeft (a_ b_ : SymBitVector)
| SymBitVectorRotateRight (a_ b_ : SymBitVector)
| SymBitVectorShiftLeft (a_ b_ : SymBitVector)
| SymBitVectorShiftRight (a_ b_ : SymBitVector)
| SymBitVectorSignDiv (a_ b_ : SymBitVector)
| SymBitVectorSignExtend (bv_ : SymBitVector) (size_ : Z)
| SymBitVectorSignMod (a_ b_ : SymBitVector)
| SymBitVectorSignShiftRight (a_ b_ : SymBitVector)
| SymBitVectorUMinus (bv_ : SymBitVector)
| SymBitVectorVar (name_ : string) (size_ : Z)
| SymBitVectorArrayLookup (a_ : SymArray) (key_ : SymBitVector)
| SymBitVectorXor (a_ b_ : SymBitVector)
with SymBool : Type :=
| SymBoolArrayEq (a_ b_ : SymArray)
| SymBoolEq (a_ b_ : SymBitVector)
| SymBoolGe (a_ b_ : SymBitVector)
| SymBoolGt (a_ b_ : SymBitVector)
| SymBoolLe (a_ b_ : SymBitVector)
| SymBoolLt (a_ b_ : SymBitVector)
| SymBoolSignGe (a_ b_ : SymBitVector)
| SymBoolSignGt (a_ b_ : SymBitVector)
| SymBoolSignLe (a_ b_ : SymBitVector)
| SymBoolSignLt (a_ b_ : SymBitVector)
| SymBoolAnd (a_ b_ : SymBool)
| SymBoolFalse
| SymBoolForAll (vars_ : list SymVar) (a_ : SymBool)
| SymBoolIff (a_ b_ : SymBool)
| SymBoolImplies (a_ b_ : SymBool)
| SymBoolNot (b_ : SymBool)
| SymBoolOr (a_ b_ : SymBool)
| SymBoolTrue
| SymBoolVar (name_ : string)
| SymBoolXor (a_ b_ : SymBool)
with SymArray : Type :=
| SymArrayStore (a_ : SymArray) (key_ value_ : SymBitVector)
| SymArrayVar (name_ : string) (key_size_ value_size_ : Z)
with SymArgs : Type :=
(* the [std::vector<SymBitVector>] of a function application *)
| args_nil
| args_cons (hd : SymBitVector) (tl : SymArgs).

Scheme SymBitVector_mut := Induction for SymBitVector Sort Prop
  with SymBool_mut := Induction for SymBool Sort Prop
  with SymArray_mut := Induction for SymArray Sort Prop
  with SymArgs_mut := Induction for SymArgs Sort Prop.
Combined Scheme Sym_mutind
  from SymBitVector_mut, SymBool_mut, SymArray_mut, SymArgs_mut.

(** [args_[i]]; [None] is the access past the end of the vector. *)
Fixpoint args_at (l : SymArgs) (i : nat) : option SymBitVector :=
  match l, i with
  | args_nil, _ => None
  | args_cons hd _, O => Some hd
  | args_cons _ tl, S i' => args_at tl i'
  end.

(** ** [split_constraints] *)

(** [it.type() == SymBool::AND] *)
Definition is_AND (it : SymBool) : bool :=
  match it with
  | SymBoolAnd _ _ => true
  | _ => false
  end.

(** The body of the [for] loop: [split] is the vector built so far.  The
    recursive call on the two-element vector [{a, b}] is the loop run on [a]
    and then on [b] from an empty vector. *)
Fixpoint split_step (split : list SymBool) (it : SymBool) : list SymBool :=
  match it with
  | SymBoolAnd a b =>
      let result := split_step (split_step [] a) b in
      result ++ split
  | _ => split ++ [it]
  end.

Definition split_constraints (constraints : list SymBool) : list SymBool :=
  fold_left split_step constraints [].

(** What a conjunction of constraints means, for any reading [atom] of the
    nodes that are not conjunctions. *)
Fixpoint conj_holds (atom : SymBool -> bool) (c : SymBool) : bool :=
  match c with
  | SymBoolAnd a b => conj_holds atom a && conj_holds atom b
  | _ => atom c
  end.

(** ** Z3 terms, as the API presents them *)

Inductive Z3_sort : Type :=
| bv_sort (sz : Z)
| Z3_mk_bool_sort
| Z3_mk_int_sort
| Z3_mk_array_sort (domain range : Z3_sort).

Inductive Z3_decl_kind : Type :=
| Z3_OP_TRUE | Z3_OP_FALSE | Z3_OP_EQ | Z3_OP_ITE | Z3_OP_AND | Z3_OP_OR
| Z3_OP_XOR | Z3_OP_NOT | Z3_OP_IMPLIES
| Z3_OP_ANUM | Z3_OP_BNUM
| Z3_OP_STORE | Z3_OP_SELECT | Z3_OP_CONST_ARRAY | Z3_OP_ARRAY_MAP
| Z3_OP_AS_ARRAY
| Z3_OP_BNEG | Z3_OP_BADD | Z3_OP_BSUB | Z3_OP_BMUL
| Z3_OP_BSDIV | Z3_OP_BUDIV | Z3_OP_BSREM | Z3_OP_BUREM
| Z3_OP_ULEQ | Z3_OP_SLEQ | Z3_OP_UGEQ | Z3_OP_SGEQ
| Z3_OP_ULT | Z3_OP_SLT | Z3_OP_UGT | Z3_OP_SGT
| Z3_OP_BAND | Z3_OP_BOR | Z3_OP_BNOT | Z3_OP_BXOR
| Z3_OP_CONCAT | Z3_OP_SIGN_EXT | Z3_OP_EXTRACT
| Z3_OP_BSHL | Z3_OP_BLSHR | Z3_OP_BASHR
| Z3_OP_EXT_ROTATE_LEFT | Z3_OP_EXT_ROTATE_RIGHT
| Z3_OP_BV2INT
| Z3_OP_UNINTERPRETED.

Record func_decl := {
  fd_name : string;
  fd_domain : list Z3_sort;
  fd_range : Z3_sort
}.

#[warnings="-register-all"]
Inductive expr : Type :=
| Z3_numeral (v : Z) (ty : Z3_sort)
| Z3_mk_const (s : string) (ty : Z3_sort)
| Z3_app (k : Z3_decl_kind) (params : list Z) (es : list expr)
| Z3_func_app (f : func_decl) (es : list expr)
| Z3_as_array (f : func_decl)
| Z3_forall (bound : list expr) (body : expr).

Definition bv_val (v sz : Z) : expr := Z3_numeral v (bv_sort sz).
Definition bv_const (s : string) (sz : Z) : expr := Z3_mk_const s (bv_sort sz).

Definition Z3_mk_true : expr := Z3_app Z3_OP_TRUE [] [].
Definition Z3_mk_false : expr := Z3_app Z3_OP_FALSE [] [].
Definition Z3_mk_eq (l r : expr) : expr := Z3_app Z3_OP_EQ [] [l; r].
Definition Z3_mk_ite (c t e : expr) : expr := Z3_app Z3_OP_ITE [] [c; t; e].
Definition Z3_mk_and (l r : expr) : expr := Z3_app Z3_OP_AND [] [l; r].
Definition Z3_mk_or (l r : expr) : expr := Z3_app Z3_OP_OR [] [l; r].
Definition Z3_mk_xor (l r : expr) : expr := Z3_app Z3_OP_XOR [] [l; r].
Definition Z3_mk_not (a : expr) : expr := Z3_app Z3_OP_NOT [] [a].
Definition Z3_mk_implies (l r : expr) : expr := Z3_app Z3_OP_IMPLIES [] [l; r].
Definition Z3_mk_store (a i v : expr) : expr := Z3_app Z3_OP_STORE [] [a; i; v].
Definition Z3_mk_select (a i : expr) : expr := Z3_app Z3_OP_SELECT [] [a; i].
Definition Z3_mk_const_array (v : expr) : expr :=
  Z3_app Z3_OP_CONST_ARRAY [] [v].
Definition Z3_mk_bvneg (a : expr) : expr := Z3_app Z3_OP_BNEG [] [a].
Definition Z3_mk_bvadd (l r : expr) : expr := Z3_app Z3_OP_BADD [] [l; r].
Definition Z3_mk_bvsub (l r : expr) : expr := Z3_app Z3_OP_BSUB [] [l; r].
Definition Z3_mk_bvmul (l r : expr) : expr := Z3_app Z3_OP_BMUL [] [l; r].
Definition Z3_mk_bvsdiv (l r : expr) : expr := Z3_app Z3_OP_BSDIV [] [l; r].
Definition Z3_mk_bvudiv (l r : expr) : expr := Z3_app Z3_OP_BUDIV [] [l; r].
Definition Z3_mk_bvsrem (l r : expr) : expr := Z3_app Z3_OP_BSREM [] [l; r].
Definition Z3_mk_bvurem (l r : expr) : expr := Z3_app Z3_OP_BUREM [] [l; r].
Definition Z3_mk_bvule (l r : expr) : expr := Z3_app Z3_OP_ULEQ [] [l; r].
Definition Z3_mk_bvsle (l r : expr) : expr := Z3_app Z3_OP_SLEQ [] [l; r].
Definition Z3_mk_bvuge (l r : expr) : expr := Z3_app Z3_OP_UGEQ [] [l; r].
Definition Z3_mk_bvsge (l r : expr) : expr := Z3_app Z3_OP_SGEQ [] [l; r].
Definition Z3_mk_bvult (l r : expr) : expr := Z3_app Z3_OP_ULT [] [l; r].
Definition Z3_mk_bvslt (l r : expr) : expr := Z3_app Z3_OP_SLT [] [l; r].
Definition Z3_mk_bvugt (l r : expr) : expr := Z3_app Z3_OP_UGT [] [l; r].
Definition Z3_mk_bvsgt (l r : expr) : expr := Z3_app Z3_OP_SGT [] [l; r].
Definition Z3_mk_bvand (l r : expr) : expr := Z3_app Z3_OP_BAND [] [l; r].
Definition Z3_mk_bvor (l r : expr) : expr := Z3_app Z3_OP_BOR [] [l; r].
Definition Z3_mk_bvnot (a : expr) : expr := Z3_app Z3_OP_BNOT [] [a].
Definition Z3_mk_bvxor (l r : expr) : expr := Z3_app Z3_OP_BXOR [] [l; r].
Definition Z3_mk_concat (l r : expr) : expr := Z3_app Z3_OP_CONCAT [] [l; r].
Definition Z3_mk_sign_ext (i : Z) (a : expr) : expr :=
  Z3_app Z3_OP_SIGN_EXT [i] [a].
Definition Z3_mk_extract (high low : Z) (a : expr) : expr :=
  Z3_app Z3_OP_EXTRACT [high; low] [a].
Definition Z3_mk_bvshl (l r : expr) : expr := Z3_app Z3_OP_BSHL [] [l; r].
Definition Z3_mk_bvlshr (l r : expr) : expr := Z3_app Z3_OP_BLSHR [] [l; r].
Definition Z3_mk_bvashr (l r : expr) : expr := Z3_app Z3_OP_BASHR [] [l; r].
Definition Z3_mk_ext_rotate_left (l r : expr) : expr :=
  Z3_app Z3_OP_EXT_ROTATE_LEFT [] [l; r].
Definition Z3_mk_ext_rotate_right (l r : expr) : expr :=
  Z3_app Z3_OP_EXT_ROTATE_RIGHT [] [l; r].
Definition Z3_mk_bv2int (a : expr) (is_signed : bool) : expr :=
  Z3_app Z3_OP_BV2INT [if is_signed then 1 else 0] [a].

(** [z3::function(name, sorts..., ret_sort)(es...)] *)
Definition function (name : string) (sorts : list Z3_sort) (ret_sort : Z3_sort)
    (es : list expr) : expr :=
  Z3_func_app {| fd_name := name; fd_domain := sorts; fd_range := ret_sort |} es.

(** [Z3_get_decl_kind(ctx, e.decl())]; a quantifier has no declaration. *)
Definition Z3_get_decl_kind (e : expr) : option Z3_decl_kind :=
  match e with
  | Z3_numeral _ (bv_sort _) => Some Z3_OP_BNUM
  | Z3_numeral _ Z3_mk_int_sort => Some Z3_OP_ANUM
  | Z3_numeral _ _ => Some Z3_OP_UNINTERPRETED
  | Z3_mk_const _ _ => Some Z3_OP_UNINTERPRETED
  | Z3_app k _ _ => Some k
  | Z3_func_app _ _ => Some Z3_OP_UNINTERPRETED
  | Z3_as_array _ => Some Z3_OP_AS_ARRAY
  | Z3_forall _ _ => None
  end.

(** [e.arg(i)] *)
Definition arg (e : expr) (i : nat) : option expr :=
  match e with
  | Z3_app _ _ es | Z3_func_app _ es => nth_error es i
  | _ => None
  end.

(** [Z3_get_decl_func_decl_parameter(ctx, e.decl(), 0)] *)
Definition Z3_get_decl_func_decl_parameter (e : expr) : option func_decl :=
  match e with
  | Z3_as_array f => Some f
  | _ => None
  end.

(** [Z3_get_numeral_uint64]: [None] when the call reports failure and leaves
    its output untouched. *)
Definition Z3_get_numeral_uint64 (e : expr) : option Z :=
  match e with
  | Z3_numeral v _ => if (0 <=? v) && (v <? 2 ^ 64) then Some v else None
  | _ => None
  end.

(** [Z3_get_numeral_int64] *)
Definition Z3_get_numeral_int64 (e : expr) : option Z :=
  match e with
  | Z3_numeral v _ =>
      if (- 2 ^ 63 <=? v) && (v <? 2 ^ 63) then Some v else None
  | _ => None
  end.

(** [Z3_get_bool_value]: [Z3_L_TRUE] is 1, [Z3_L_FALSE] is -1, [Z3_L_UNDEF]
    is 0. *)
Definition Z3_get_bool_value (e : expr) : Z :=
  match e with
  | Z3_app Z3_OP_TRUE _ _ => 1
  | Z3_app Z3_OP_FALSE _ _ => -1
  | _ => 0
  end.

Record func_entry := {
  entry_args : list expr;
  entry_value : expr
}.

Record func_interp := {
  entries : list func_entry;
  else_value : expr
}.

(** What [solver_.check()] can do: the three values of [z3::check_result], a
    value outside the enumeration, or an exception of a class derived from
    [std::exception] whose [what()] is given. *)
Inductive check_result (model : Type) : Type :=
| unsat
| sat (m : model)
| unknown
| out_of_enum
| threw (what : string).
Arguments unsat {model}.
Arguments sat {model} m.
Arguments unknown {model}.
Arguments out_of_enum {model}.
Arguments threw {model} what.

(** ** Outcomes *)

Inductive halt : Type :=
| assertion_failed
| out_of_range
| uninitialised_read
| null_dereference
| z3_error
| invalid_delete.

Inductive outcome (A : Type) : Type :=
| Done (a : A)
| Halt (why : halt).
Arguments Done {A} a.
Arguments Halt {A} why.

Definition obind {A B : Type} (m : outcome A) (k : A -> outcome B) : outcome B :=
  match m with
  | Done a => k a
  | Halt why => Halt why
  end.

Definition assert_ (cond : bool) : outcome unit :=
  if cond then Done tt else Halt assertion_failed.

(** A value that may have been left unwritten is read. *)
Definition read {A : Type} (why : halt) (x : option A) : outcome A :=
  match x with
  | Some a => Done a
  | None => Halt why
  end.

(** Where a vector lives: in a local variable, or in what [new] returned. *)
Inductive storage : Type :=
| automatic
| dynamic.

(** [delete p]: defined for what [new] returned and for nothing else. *)
Definition delete (p : storage) : outcome unit :=
  match p with
  | dynamic => Done tt
  | automatic => Halt invalid_delete
  end.

(** [e.what()] in a handler that catches [std::exception] by value: the
    handler's [e] is a copy of the base class part of what was thrown, and
    its [what()] is the base class's, which libstdc++ answers with the name
    of the class. *)
Definition what_of_copy (what : string) : string := "std::exception".

Declare Scope outcome_scope.
Delimit Scope outcome_scope with outcome.
Notation "x <- m ;; k" := (obind m (fun x => k))
  (at level 100, m at next level, right associativity) : outcome_scope.

Definition endl : string := String (Ascii.ascii_of_nat 10) EmptyString.
Definition to_string (n : Z) : string := pretty n.

(** ** [cpputil::BitVector] *)

(** Modelled from the spec: [cpputil::BitVector] is not among the sources.  A
    vector that reports the [n] bits it was built for and keeps them in
    [(n+7)/8] bytes, all zero at first; [get_fixed_byte(j)] refers to byte
    [j]. *)
Record BitVector := {
  num_bits : Z;
  fixed_bytes : list Z
}.

Definition BitVector_new (n : Z) : BitVector :=
  {| num_bits := n; fixed_bytes := replicate (Z.to_nat ((n + 7) / 8)) 0 |}.

(** [bv.get_fixed_byte(j) = value], the value converted to [uint8_t]. *)
Definition set_fixed_byte (bv : BitVector) (j : Z) (value : Z)
    : outcome BitVector :=
  if (0 <=? j) && (j <? Z.of_nat (length (fixed_bytes bv))) then
    Done {| num_bits := num_bits bv;
            fixed_bytes := <[Z.to_nat j := value mod 256]> (fixed_bytes bv) |}
  else Halt out_of_range.

(** [BitVector bv_v(8); bv_v.get_fixed_byte(0) = value;] *)
Definition byte_bv (value : Z) : BitVector :=
  {| num_bits := 8; fixed_bytes := [value mod 256] |}.

(** ** [Z3Solver::ExprConverter] *)

Record ExprConverter := {
  ec_error_ : string;
  constraints_ : list SymBool
}.

Definition conv (A : Type) : Type := ExprConverter -> outcome (A * ExprConverter).

Definition cret {A : Type} (a : A) : conv A := fun ec => Done (a, ec).

Definition cbind {A B : Type} (m : conv A) (k : A -> conv B) : conv B :=
  fun ec =>
    match m ec with
    | Done (a, ec') => k a ec'
    | Halt why => Halt why
    end.

Definition chalt {A : Type} (why : halt) : conv A := fun _ => Halt why.

(** [constraints_.push_back(c)] *)
Definition push_back (c : SymBool) : conv unit :=
  fun ec => Done (tt, {| ec_error_ := ec_error_ ec;
                         constraints_ := constraints_ ec ++ [c] |}).

(** [error_ = msg] *)
Definition set_ec_error (msg : string) : conv unit :=
  fun ec => Done (tt, {| ec_error_ := msg; constraints_ := constraints_ ec |}).

Definition has_error (ec : ExprConverter) : bool :=
  negb (String.eqb (ec_error_ ec) "").

Declare Scope conv_scope.
Delimit Scope conv_scope with conv.
Notation "x <- m ;; k" := (cbind m (fun x => k))
  (at level 100, m at next level, right associativity) : conv_scope.

(** Modelled from the spec: [SymBitVector::operator!=] is not among the
    sources; "the divisor is non-zero" is the negation of the equality
    node. *)
Definition bv_neq (a b : SymBitVector) : SymBool := SymBoolNot (SymBoolEq a b).

(** The guard that a signed division pushes for its divisor [arg] of width
    [width]: [arg != SymBitVector::constant(width, 0)]. *)
Definition divisor_guard (width : Z) (arg : SymBitVector) : SymBool :=
  let zero := SymBitVectorConstant width 0 in
  bv_neq arg zero.

(** ** The divisors of the signed divisions of a term

    [divisors_bv e] lists the divisor [b_] of every [SymBitVectorSignDiv] node
    of [e], in the order in which the converter meets them. *)
Fixpoint divisors_bv (bv : SymBitVector) : list SymBitVector :=
  match bv with
  | SymBitVectorSignDiv a b => b :: divisors_bv a ++ divisors_bv b
  | SymBitVectorAnd a b | SymBitVectorConcat a b | SymBitVectorDiv a b
  | SymBitVectorMinus a b | SymBitVectorMod a b | SymBitVectorMult a b
  | SymBitVectorOr a b | SymBitVectorPlus a b
  | SymBitVectorRotateLeft a b | SymBitVectorRotateRight a b
  | SymBitVectorShiftLeft a b | SymBitVectorShiftRight a b
  | SymBitVectorSignMod a b | SymBitVectorSignShiftRight a b
  | SymBitVectorXor a b => divisors_bv a ++ divisors_bv b
  | SymBitVectorExtract a _ _ | SymBitVectorNot a
  | SymBitVectorSignExtend a _ | SymBitVectorUMinus a => divisors_bv a
  | SymBitVectorConstant _ _ | SymBitVectorVar _ _ => []
  | SymBitVectorFunction f l => divisors_args (length (args f)) l
  | SymBitVectorIte c a b => divisors_bool c ++ divisors_bv a ++ divisors_bv b
  | SymBitVectorArrayLookup a key => divisors_array a ++ divisors_bv key
  end
with divisors_bool (b : SymBool) : list SymBitVector :=
  match b with
  | SymBoolArrayEq x y => divisors_array x ++ divisors_array y
  | SymBoolEq x y | SymBoolGe x y | SymBoolGt x y | SymBoolLe x y
  | SymBoolLt x y | SymBoolSignGe x y | SymBoolSignGt x y
  | SymBoolSignLe x y | SymBoolSignLt x y => divisors_bv x ++ divisors_bv y
  | SymBoolAnd x y | SymBoolIff x y | SymBoolImplies x y | SymBoolOr x y
  | SymBoolXor x y => divisors_bool x ++ divisors_bool y
  | SymBoolForAll _ x | SymBoolNot x => divisors_bool x
  | SymBoolFalse | SymBoolTrue | SymBoolVar _ => []
  end
with divisors_array (a : SymArray) : list SymBitVector :=
  match a with
  | SymArrayStore x key value =>
      divisors_array x ++ divisors_bv key ++ divisors_bv value
  | SymArrayVar _ _ _ => []
  end
with divisors_args (n : nat) (l : SymArgs) : list SymBitVector :=
  (* only the first [n] arguments of a function application are lowered *)
  match l with
  | args_nil => []
  | args_cons hd tl =>
      match n with
      | O => []
      | S n' => divisors_bv hd ++ divisors_args n' tl
      end
  end.

(** An upper bound on the number of rounds of the worklist of [is_sat] that
    [current] can start: a derived constraint holds fewer signed divisions
    than the constraint it comes from. *)
Definition rounds (current : list SymBool) : nat :=
  match current with
  | [] => O
  | _ :: _ => S (list_max (map (fun c => length (divisors_bool c)) current))
  end.

(** [mk(ctx, visit a, visit b)]: the operands are lowered from left to
    right (C++ leaves the order open; it only permutes the derived
    constraints). *)
Definition unop (mk : expr -> expr) (ma : conv expr) : conv expr :=
  (a <- ma ;; cret (mk a))%conv.

Definition binop (mk : expr -> expr -> expr) (ma mb : conv expr) : conv expr :=
  (a <- ma ;; b <- mb ;; cret (mk a b))%conv.

Definition ternop (mk : expr -> expr -> expr -> expr) (ma mb mc : conv expr)
    : conv expr :=
  (a <- ma ;; b <- mb ;; c <- mc ;; cret (mk a b c))%conv.

(** A chain of point updates over [base]; the head of [ups] is the outermost
    store.  Addresses are numerals of [key_bits] bits, values numerals of
    [value_bits] bits. *)
Definition store_chain (key_bits value_bits : Z) (base : expr)
    (ups : list (Z * Z)) : expr :=
  fold_right
    (fun p e => Z3_mk_store e (bv_val (fst p) key_bits) (bv_val (snd p) value_bits))
    base ups.

(** The pairs recorded from a chain, outermost first. *)
Definition recorded (ups : list (Z * Z)) (addr_val_map : gmap Z BitVector)
    : gmap Z BitVector :=
  fold_left (fun m p => <[fst p := byte_bv (snd p)]> m) ups addr_val_map.

(** Bits [lo..hi] of [val], and the signed reading of [w] bits. *)
Definition bits_of (val hi lo : Z) : Z := (val / 2 ^ lo) mod 2 ^ (hi - lo + 1).
Definition signed (w x : Z) : Z := if x <? 2 ^ (w - 1) then x else x - 2 ^ w.

(** Byte [k] of [val], and the [n] low bytes of [val], least significant
    first. *)
Definition byte_at (val k : Z) : Z := (val / 2 ^ (8 * k)) mod 256.
Definition le_bytes (val : Z) (n : nat) : list Z :=
  map (fun j => byte_at val (Z.of_nat j)) (seq 0 n).

(** ** Reference collaborators, for the examples

    A model gives a value to every bit-vector constant by name; the reference
    evaluator knows numerals, constants, negation, equality, the divisions,
    [extract] and [bv2int], and leaves every other term as it is.  The
    reference solver tries one candidate model. *)

Definition ref_model : Type := list (string * Z).

(** The value of the constant [s]: the first pair for [s], 0 without one. *)
Fixpoint ref_value (m : ref_model) (s : string) : Z :=
  match m with
  | [] => 0
  | (s', v) :: rest => if String.eqb s s' then v else ref_value rest s
  end.

Definition ref_bool (b : bool) : expr := if b then Z3_mk_true else Z3_mk_false.

Definition ref_binary (f : Z -> Z -> Z -> Z) (stuck x y : expr) : expr :=
  match x, y with
  | Z3_numeral a (bv_sort w), Z3_numeral b (bv_sort _) => bv_val (f w a b) w
  | _, _ => stuck
  end.

Definition ref_udiv (w a b : Z) : Z := if b =? 0 then 2 ^ w - 1 else a / b.
Definition ref_urem (w a b : Z) : Z := if b =? 0 then a else a mod b.
Definition ref_sdiv (w a b : Z) : Z :=
  if b =? 0 then (if signed w a <? 0 then 1 else 2 ^ w - 1)
  else (Z.quot (signed w a) (signed w b)) mod 2 ^ w.
Definition ref_srem (w a b : Z) : Z :=
  if b =? 0 then a else (Z.rem (signed w a) (signed w b)) mod 2 ^ w.

Fixpoint ref_eval (m : ref_model) (e : expr) {struct e} : expr :=
  match e with
  | Z3_mk_const s (bv_sort sz) => bv_val (ref_value m s mod 2 ^ sz) sz
  | Z3_app Z3_OP_NOT _ [a] =>
      let v := Z3_get_bool_value (ref_eval m a) in
      if v =? 1 then Z3_mk_false else if v =? -1 then Z3_mk_true else e
  | Z3_app Z3_OP_EQ _ [a; b] =>
      match ref_eval m a, ref_eval m b with
      | Z3_numeral x _, Z3_numeral y _ => ref_bool (x =? y)
      | _, _ => e
      end
  | Z3_app Z3_OP_BUDIV _ [a; b] =>
      ref_binary ref_udiv e (ref_eval m a) (ref_eval m b)
  | Z3_app Z3_OP_BUREM _ [a; b] =>
      ref_binary ref_urem e (ref_eval m a) (ref_eval m b)
  | Z3_app Z3_OP_BSDIV _ [a; b] =>
      ref_binary ref_sdiv e (ref_eval m a) (ref_eval m b)
  | Z3_app Z3_OP_BSREM _ [a; b] =>
      ref_binary ref_srem e (ref_eval m a) (ref_eval m b)
  | Z3_app Z3_OP_EXTRACT [hi; lo] [a] =>
      match ref_eval m a with
      | Z3_numeral x (bv_sort _) => bv_val (bits_of x hi lo) (hi - lo + 1)
      | _ => e
      end
  | Z3_app Z3_OP_BV2INT [sg] [a] =>
      match ref_eval m a with
      | Z3_numeral x (bv_sort w) =>
          Z3_numeral (if sg =? 1 then signed w x else x) Z3_mk_int_sort
      | _ => e
      end
  | _ => e
  end.

Definition ref_check (m : ref_model) (assertions : list expr)
    : check_result ref_model :=
  if forallb (fun t => Z3_get_bool_value (ref_eval m t) =? 1) assertions
  then sat m else unknown.

(** The width of the nodes that the examples use. *)
Fixpoint ref_width (bv : SymBitVector) : Z :=
  match bv with
  | SymBitVectorConstant size _ | SymBitVectorVar _ size
  | SymBitVectorSignExtend _ size => size
  | SymBitVectorExtract _ high low => high - low + 1
  | SymBitVectorAnd a _ | SymBitVectorDiv a _ | SymBitVectorMinus a _
  | SymBitVectorMod a _ | SymBitVectorMult a _ | SymBitVectorOr a _
  | SymBitVectorPlus a _ | SymBitVectorRotateLeft a _
  | SymBitVectorRotateRight a _ | SymBitVectorShiftLeft a _
  | SymBitVectorShiftRight a _ | SymBitVectorSignDiv a _
  | SymBitVectorSignMod a _ | SymBitVectorSignShiftRight a _
  | SymBitVectorXor a _ | SymBitVectorNot a | SymBitVectorUMinus a
  | SymBitVectorIte _ a _ => ref_width a
  | SymBitVectorConcat a b => ref_width a + ref_width b
  | SymBitVectorFunction f _ => return_type f
  | SymBitVectorArrayLookup _ _ => 8
  end.

Definition ref_axioms (constraints : list SymBool) : list SymBool := [].
Definition ref_tc (c : SymBool) : Z := 1.
Definition ref_tc_error (c : SymBool) : option string := None.
Definition ref_show (c : SymBool) : string := "".
Definition never (k : nat) : bool := false.
Definition ref_func_interp (m : ref_model) (f : func_decl) : func_interp :=
  {| entries := []; else_value := bv_val 0 8 |}.
Definition ref_uint8 (e : expr) : Z := 1.

(** The evaluator that gives every term the model value [e]. *)
Definition always (e : expr) (m : ref_model) (query : expr) : expr := e.


Definition x8 : SymBitVector := SymBitVectorVar "x" 8.
Definition y8 : SymBitVector := SymBitVectorVar "y" 8.
Definition c8 (n : Z) : SymBitVector := SymBitVectorConstant 8 n.

(** x = 6, y = 3 and every other constant 0. *)
Definition m63 : ref_model := [("x", 6); ("y", 3)].
(** x = 255 and every other constant 0, y among them. *)
Definition m_y0 : ref_model := [("x", 255)].


(** ** Further notions

    The leaves of a conjunction, from left to right. *)
Fixpoint conj_leaves (c : SymBool) : list SymBool :=
  match c with
  | SymBoolAnd a b => conj_leaves a ++ conj_leaves b
  | _ => [c]
  end.

(** The integer that a list of bytes spells, least significant byte first. *)
Definition le_value (bytes : list Z) : Z :=
  fold_right (fun b acc => b + 256 * acc) 0 bytes.

(** The shapes that the converter has a rule for: every function application
    declares one, two or three argument sorts and has at least as many
    arguments, and every quantification binds one, two or three variables. *)
Fixpoint supported_bv (bv : SymBitVector) : bool :=
  match bv with
  | SymBitVectorAnd a b | SymBitVectorConcat a b | SymBitVectorDiv a b
  | SymBitVectorMinus a b | SymBitVectorMod a b | SymBitVectorMult a b
  | SymBitVectorOr a b | SymBitVectorPlus a b
  | SymBitVectorRotateLeft a b | SymBitVectorRotateRight a b
  | SymBitVectorShiftLeft a b | SymBitVectorShiftRight a b
  | SymBitVectorSignDiv a b | SymBitVectorSignMod a b
  | SymBitVectorSignShiftRight a b | SymBitVectorXor a b =>
      supported_bv a && supported_bv b
  | SymBitVectorExtract a _ _ | SymBitVectorNot a
  | SymBitVectorSignExtend a _ | SymBitVectorUMinus a => supported_bv a
  | SymBitVectorConstant _ _ | SymBitVectorVar _ _ => true
  | SymBitVectorFunction f l =>
      match length (args f) with
      | 1%nat | 2%nat | 3%nat => supported_args (length (args f)) l
      | _ => false
      end
  | SymBitVectorIte c a b =>
      supported_bool c && supported_bv a && supported_bv b
  | SymBitVectorArrayLookup a key => supported_array a && supported_bv key
  end
with supported_bool (b : SymBool) : bool :=
  match b with
  | SymBoolArrayEq x y => supported_array x && supported_array y
  | SymBoolEq x y | SymBoolGe x y | SymBoolGt x y | SymBoolLe x y
  | SymBoolLt x y | SymBoolSignGe x y | SymBoolSignGt x y
  | SymBoolSignLe x y | SymBoolSignLt x y => supported_bv x && supported_bv y
  | SymBoolAnd x y | SymBoolIff x y | SymBoolImplies x y | SymBoolOr x y
  | SymBoolXor x y => supported_bool x && supported_bool y
  | SymBoolForAll vars x =>
      supported_bool x &&
      match length vars with
      | 1%nat | 2%nat | 3%nat => true
      | _ => false
      end
  | SymBoolNot x => supported_bool x
  | SymBoolFalse | SymBoolTrue | SymBoolVar _ => true
  end
with supported_array (a : SymArray) : bool :=
  match a with
  | SymArrayStore x key value =>
      supported_array x && supported_bv key && supported_bv value
  | SymArrayVar _ _ _ => true
  end
with supported_args (n : nat) (l : SymArgs) : bool :=
  match n with
  | O => true
  | S n' =>
      match l with
      | args_nil => false
      | args_cons hd tl => supported_bv hd && supported_args n' tl
      end
  end.

(** The entries of a function interpretation that maps each address of
    [ents] to its value. *)
Definition entries_of (key_bits value_bits : Z) (ents : list (Z * Z))
    : list func_entry :=
  map (fun p => {| entry_args := [bv_val (fst p) key_bits];
                   entry_value := bv_val (snd p) value_bits |}) ents.

(** A solver that answers [sat] with the model [m] whatever is asserted; it
    is sound for the evaluator [always Z3_mk_true]. *)
Definition sat_with (m : ref_model) (assertions : list expr)
    : check_result ref_model := sat m.

(** A type checker that rejects the constant [false] and nothing else. *)
Definition tc_no_false (c : SymBool) : Z :=
  match c with
  | SymBoolFalse => 0
  | _ => 1
  end.

(** A function declaration and an interpretation of it with two entries. *)
Definition mem_fd : func_decl :=
  {| fd_name := "k!0"; fd_domain := [bv_sort 64]; fd_range := bv_sort 8 |}.
Definition mem_interp (m : ref_model) (f : func_decl) : func_interp :=
  {| entries := entries_of 64 8 [(1, 9); (2, 8)]; else_value := bv_val 0 8 |}.
Section Z3Solver.

(** [SymBitVectorAbstract::width_], set when a node is built. *)
Variable width_ : SymBitVector -> Z.

(** *** The visitor: one case per [visit] overload *)

Fixpoint visit_bv (bv : SymBitVector) {struct bv} : conv expr :=
  match bv with
  | SymBitVectorAnd a b => binop Z3_mk_bvand (visit_bv a) (visit_bv b)
  | SymBitVectorConcat a b => binop Z3_mk_concat (visit_bv a) (visit_bv b)
  | SymBitVectorConstant size constant => cret (bv_val constant size)
  | SymBitVectorDiv a b => binop Z3_mk_bvudiv (visit_bv a) (visit_bv b)
  | SymBitVectorExtract a high_bit low_bit =>
      unop (Z3_mk_extract high_bit low_bit) (visit_bv a)
  | SymBitVectorFunction f l =>
      let sorts := map bv_sort (args f) in
      let ret_sort := bv_sort (return_type f) in
      match length sorts with
      | 0%nat =>
          (_ <- set_ec_error ("Function " +:+ name f +:+ " has no arguments: "
                              +:+ to_string (Z.of_nat (length sorts))) ;;
           chalt assertion_failed)%conv
      | 1%nat | 2%nat | 3%nat =>
          (es <- visit_args (length sorts) l ;;
           cret (function (name f) sorts ret_sort es))%conv
      | _ =>
          (_ <- set_ec_error ("Function " +:+ name f
                              +:+ " has too many arguments: "
                              +:+ to_string (Z.of_nat (length sorts))) ;;
           chalt assertion_failed)%conv
      end
  | SymBitVectorIte c a b =>
      ternop Z3_mk_ite (visit_bool c) (visit_bv a) (visit_bv b)
  | SymBitVectorMinus a b => binop Z3_mk_bvsub (visit_bv a) (visit_bv b)
  | SymBitVectorMod a b => binop Z3_mk_bvurem (visit_bv a) (visit_bv b)
  | SymBitVectorMult a b => binop Z3_mk_bvmul (visit_bv a) (visit_bv b)
  | SymBitVectorNot a => unop Z3_mk_bvnot (visit_bv a)
  | SymBitVectorOr a b => binop Z3_mk_bvor (visit_bv a) (visit_bv b)
  | SymBitVectorPlus a b => binop Z3_mk_bvadd (visit_bv a) (visit_bv b)
  | SymBitVectorRotateLeft a b =>
      binop Z3_mk_ext_rotate_left (visit_bv a) (visit_bv b)
  | SymBitVectorRotateRight a b =>
      binop Z3_mk_ext_rotate_right (visit_bv a) (visit_bv b)
  | SymBitVectorShiftLeft a b => binop Z3_mk_bvshl (visit_bv a) (visit_bv b)
  | SymBitVectorShiftRight a b => binop Z3_mk_bvlshr (visit_bv a) (visit_bv b)
  | SymBitVectorSignDiv a b =>
      (* assert second arg non-zero *)
      let arg := b in
      let width := width_ arg in
      let constraint := divisor_guard width arg in
      (_ <- push_back constraint ;;
       binop Z3_mk_bvsdiv (visit_bv a) (visit_bv b))%conv
  | SymBitVectorSignExtend a size =>
      let child := width_ a in
      unop (Z3_mk_sign_ext (size - child)) (visit_bv a)
  | SymBitVectorSignMod a b => binop Z3_mk_bvsrem (visit_bv a) (visit_bv b)
  | SymBitVectorSignShiftRight a b =>
      binop Z3_mk_bvashr (visit_bv a) (visit_bv b)
  | SymBitVectorUMinus a => unop Z3_mk_bvneg (visit_bv a)
  | SymBitVectorVar name size => cret (bv_const name size)
  | SymBitVectorArrayLookup a key =>
      binop Z3_mk_select (visit_array a) (visit_bv key)
  | SymBitVectorXor a b => binop Z3_mk_bvxor (visit_bv a) (visit_bv b)
  end
with visit_bool (b : SymBool) {struct b} : conv expr :=
  match b with
  | SymBoolArrayEq x y => binop Z3_mk_eq (visit_array x) (visit_array y)
  | SymBoolEq x y => binop Z3_mk_eq (visit_bv x) (visit_bv y)
  | SymBoolGe x y => binop Z3_mk_bvuge (visit_bv x) (visit_bv y)
  | SymBoolGt x y => binop Z3_mk_bvugt (visit_bv x) (visit_bv y)
  | SymBoolLe x y => binop Z3_mk_bvule (visit_bv x) (visit_bv y)
  | SymBoolLt x y => binop Z3_mk_bvult (visit_bv x) (visit_bv y)
  | SymBoolSignGe x y => binop Z3_mk_bvsge (visit_bv x) (visit_bv y)
  | SymBoolSignGt x y => binop Z3_mk_bvsgt (visit_bv x) (visit_bv y)
  | SymBoolSignLe x y => binop Z3_mk_bvsle (visit_bv x) (visit_bv y)
  | SymBoolSignLt x y => binop Z3_mk_bvslt (visit_bv x) (visit_bv y)
  | SymBoolAnd x y => binop Z3_mk_and (visit_bool x) (visit_bool y)
  | SymBoolFalse => cret Z3_mk_false
  | SymBoolForAll vars x =>
      (* Get expressions for variable *)
      let exprs := map (fun v => bv_const (name_ v) (size_ v)) vars in
      (* Get expression for child formula *)
      (inside <- visit_bool x ;;
       (* Find a method that works... *)
       match exprs with
       | [e0] => cret (Z3_forall [e0] inside)
       | [e0; e1] => cret (Z3_forall [e0; e1] inside)
       | [e0; e1; e2] => cret (Z3_forall [e0; e1; e2] inside)
       | _ => (* NOTE: this code doesn't work *) chalt assertion_failed
       end)%conv
  | SymBoolIff x y => binop Z3_mk_eq (visit_bool x) (visit_bool y)
  | SymBoolImplies x y => binop Z3_mk_implies (visit_bool x) (visit_bool y)
  | SymBoolNot x => unop Z3_mk_not (visit_bool x)
  | SymBoolOr x y => binop Z3_mk_or (visit_bool x) (visit_bool y)
  | SymBoolTrue => cret Z3_mk_true
  | SymBoolVar name => cret (Z3_mk_const name Z3_mk_bool_sort)
  | SymBoolXor x y => binop Z3_mk_xor (visit_bool x) (visit_bool y)
  end
with visit_array (a : SymArray) {struct a} : conv expr :=
  match a with
  | SymArrayStore x key value =>
      ternop Z3_mk_store (visit_array x) (visit_bv key) (visit_bv value)
  | SymArrayVar name key_size value_size =>
      let key_sort := bv_sort key_size in
      let val_sort := bv_sort value_size in
      let type := Z3_mk_array_sort key_sort val_sort in
      cret (Z3_mk_const name type)
  end
with visit_args (n : nat) (l : SymArgs) {struct l} : conv (list expr) :=
  (* the visits of [args_[0]], ..., [args_[n-1]], in this order *)
  match n with
  | O => cret []
  | S n' =>
      match l with
      | args_nil => chalt out_of_range
      | args_cons hd tl =>
          (e <- visit_bv hd ;; es <- visit_args n' tl ;; cret (e :: es))%conv
      end
  end.

(** *** [Z3Solver::is_sat] *)

(** [SymAxiomVisitor]: the axioms collected from the constraints. *)
Variable get_axioms : list SymBool -> list SymBool.

(** [SymTypecheckVisitor]: the width computed for a constraint (0 on failure),
    and the error message it holds afterwards, if any. *)
Variable tc : SymBool -> Z.
Variable tc_error : SymBool -> option string.

(** [operator<<] on a constraint. *)
Variable show : SymBool -> string.

(** [z3::model] and what the solver answers for a list of assertions. *)
Variable model : Type.
Variable Z3_solver_check : list expr -> check_result model.

(** [stop_now_] is an [std::atomic<bool>] that another thread may set while
    the call runs: [interrupt k] is what the [k]-th load of the call reads. *)
Variable interrupt : nat -> bool.

(** The fields of the solver object that the code reads and writes;
    [solver_] is the list of the terms asserted since the last reset and
    [loads_] counts the loads of [stop_now_] made by the current call. *)
Record Z3Solver := {
  error_ : string;
  model_ : option model;
  stop_now_ : bool;
  solver_ : list expr;
  loads_ : nat
}.

Definition set_error_ (msg : string) (s : Z3Solver) : Z3Solver :=
  {| error_ := msg; model_ := model_ s; stop_now_ := stop_now_ s;
     solver_ := solver_ s; loads_ := loads_ s |}.

Definition set_model_ (m : option model) (s : Z3Solver) : Z3Solver :=
  {| error_ := error_ s; model_ := m; stop_now_ := stop_now_ s;
     solver_ := solver_ s; loads_ := loads_ s |}.

(** [solver_.add(constraint)] *)
Definition solver_add (constraint : expr) (s : Z3Solver) : Z3Solver :=
  {| error_ := error_ s; model_ := model_ s; stop_now_ := stop_now_ s;
     solver_ := solver_ s ++ [constraint]; loads_ := loads_ s |}.

(** One load of [stop_now_]. *)
Definition load_stop_now_ (s : Z3Solver) : Z3Solver :=
  {| error_ := error_ s; model_ := model_ s;
     stop_now_ := interrupt (loads_ s);
     solver_ := solver_ s; loads_ := S (loads_ s) |}.

(** The lambda [check_abort]. *)
Definition check_abort (s : Z3Solver) : bool * Z3Solver :=
  let s := load_stop_now_ s in
  if stop_now_ s then (true, set_error_ "External interrupt." s)
  else (false, s).

(** Where a loop of [is_sat] leaves: it runs to its end, or the function
    returns from inside it. *)
Inductive flow (A : Type) : Type :=
| Next (a : A)
| Return (b : bool) (s : Z3Solver).
Arguments Next {A} a.
Arguments Return {A} b s.

Definition typecheck_message (it : SymBool) : string :=
  "Typechecking failed for constraint: " +:+ show it +:+ endl +:+
  match tc_error it with
  | Some e => "error: " +:+ e +:+ endl
  | None => "(no typechecking error message given)" +:+ endl
  end.

(** The loop [for (auto it : *current)]. *)
Fixpoint lower_each (current : list SymBool) (ec : ExprConverter)
    (s : Z3Solver) : outcome (flow (ExprConverter * Z3Solver)) :=
  match current with
  | [] => Done (Next (ec, s))
  | it :: rest =>
      let (stop, s) := check_abort s in
      if stop then Done (Return false s)
      else if negb (tc it =? 1) then
        Done (Return false (set_error_ (typecheck_message it) s))
      else
        match visit_bool it ec with
        | Halt why => Halt why
        | Done (constraint, ec) =>
            if has_error ec then
              Done (Return false (set_error_ (ec_error_ ec) s))
            else lower_each rest ec (solver_add constraint s)
        end
  end.

(** The loop [while (current->size() != 0)], with [fuel] for its rounds;
    [None] is the lack of fuel. *)
Fixpoint lowering_loop (fuel : nat) (current : list SymBool) (s : Z3Solver)
    : option (outcome (flow Z3Solver)) :=
  match current with
  | [] => Some (Done (Next s))
  | _ :: _ =>
      match fuel with
      | O => None
      | S fuel' =>
          let (stop, s) := check_abort s in
          if stop then Some (Done (Return false s))
          else
            let ec := {| ec_error_ := ""; constraints_ := [] |} in
            match lower_each current ec s with
            | Halt why => Some (Halt why)
            | Done (Return b s) => Some (Done (Return b s))
            | Done (Next (ec, s)) => lowering_loop fuel' (constraints_ ec) s
            end
      end
  end.

(** "Run the solver and see": the [try] block. *)
Definition run_solver (s : Z3Solver) : outcome (bool * Z3Solver) :=
  let (stop, s) := check_abort s in
  if stop then Done (false, s)
  else
    match Z3_solver_check (solver_ s) with
    | unsat => Done (false, s)
    | sat m => Done (true, set_model_ (Some m) s)
    | unknown => Done (false, set_error_ "z3 gave up." s)
    | out_of_enum => Halt assertion_failed
    | threw what =>
        (* [catch (std::exception e)] *)
        Done (false,
              set_error_ ("Z3 encountered error: " +:+ what_of_copy what
                          +:+ endl) s)
    end.

(** "Reset state." *)
Definition reset_state (s : Z3Solver) : Z3Solver :=
  {| error_ := ""; model_ := None; stop_now_ := false; solver_ := [];
     loads_ := O |}.

(** What [current] points to when the [while] loop is left by its
    condition.  [current] starts as [&split], the address of a local, and
    every round that runs to its end sets it to the [new_constraints] that
    the round got from [new]; [free_it] is set by then, so the [delete]
    inside the loop only meets vectors from [new]. *)
Definition current_after (split : list SymBool) : storage :=
  match split with
  | [] => automatic
  | _ :: _ => dynamic
  end.

Definition is_sat_fuel (fuel : nat) (s : Z3Solver) (constraints : list SymBool)
    : option (outcome (bool * Z3Solver)) :=
  let s := reset_state s in
  let all_constraints := constraints ++ get_axioms constraints in
  let split := split_constraints all_constraints in
  match lowering_loop fuel split s with
  | None => None
  | Some (Halt why) => Some (Halt why)
  | Some (Done (Return b s)) => Some (Done (b, s))
  | Some (Done (Next s)) =>
      (* [delete current;] after the loop *)
      match delete (current_after split) with
      | Halt why => Some (Halt why)
      | Done _ => Some (run_solver s)
      end
  end.

(** [is_sat]: the worklist is given the rounds it can need. *)
Definition is_sat (s : Z3Solver) (constraints : list SymBool)
    : option (outcome (bool * Z3Solver)) :=
  is_sat_fuel
    (rounds (split_constraints (constraints ++ get_axioms constraints)))
    s constraints.

(** *** The model decoders *)

(** [model_->eval(e, true)] and [model_->get_func_interp(fd)]. *)
Variable model_eval : model -> expr -> expr.
Variable get_func_interp : model -> func_decl -> func_interp.

(** The conversion that [result.second = default_value] applies to a
    [z3::expr]; it is defined by the C++ binding of Z3. *)
Variable expr_to_uint8 : expr -> Z.

(** The inner loop of [get_model_bv]: [n] bytes of [oct], from byte [j] of the
    result on.  [oct] is [None] while nothing was written into it. *)
Fixpoint write_oct (n : nat) (j k : Z) (oct : option Z) (result : BitVector)
    : outcome BitVector :=
  match n with
  | O => Done result
  | S n' =>
      (o <- read uninitialised_read oct ;;
       result <- set_fixed_byte result j (Z.land (Z.shiftr o (k * 8)) 255) ;;
       write_oct n' (j + 1) (k + 1) oct result)%outcome
  end.

(** [i*64+63 > bits ? bits-1 : i*64+63] *)
Definition max_bits_of (bits i : Z) : Z :=
  if i * 64 + 63 >? bits then bits - 1 else i * 64 + 63.

(** [to_expr(context_, Z3_mk_extract(context_, high, low, v))] for [v] of
    [size] bits: Z3 refuses an extract whose high bit is not a bit of the
    vector, and [to_expr] throws for the error that the context then holds.
    (In the loop of [get_model_bv] the low bit of a window is never above
    its high bit, which Z3 would refuse as well.) *)
Definition to_expr_extract (high low size : Z) (v : expr) : outcome expr :=
  if high <? size then Done (Z3_mk_extract high low v) else Halt z3_error.

(** The body of the outer loop of [get_model_bv], for window [i]; [v] is the
    constant of [bits] bits. *)
Definition read_window (mdl : option model) (v : expr) (bits i : Z)
    (result : BitVector) : outcome BitVector :=
  let max_bits := max_bits_of bits i in
  (extract <- to_expr_extract max_bits (i * 64) bits v ;;
   let number := Z3_mk_bv2int extract true in
   m <- read null_dereference mdl ;;
   let eval := model_eval m number in
   (* the [long long] is written through a pointer to [uint64_t] *)
   let oct := option_map (fun x => x mod 2 ^ 64) (Z3_get_numeral_int64 eval) in
   _ <- assert_ ((max_bits + 1) mod 8 =? 0) ;;
   write_oct (Z.to_nat ((max_bits + 1) / 8 - i * 8)) (i * 8) 0 oct result)%outcome.

(** The outer loop, [n] windows from window [i] on. *)
Fixpoint read_windows (n : nat) (mdl : option model) (v : expr) (bits i : Z)
    (result : BitVector) : outcome BitVector :=
  match n with
  | O => Done result
  | S n' =>
      (result <- read_window mdl v bits i result ;;
       read_windows n' mdl v bits (i + 1) result)%outcome
  end.

Definition get_model_bv (s : Z3Solver) (var : string) (bits : Z)
    : outcome BitVector :=
  let octs := (bits + 63) / 64 in
  let type := bv_sort bits in
  let v := Z3_mk_const var type in
  let result := BitVector_new bits in
  (result <- read_windows (Z.to_nat octs) (model_ s) v bits 0 result ;;
   _ <- assert_ (num_bits result =? bits) ;;
   Done result)%outcome.

Definition get_model_bool (s : Z3Solver) (var : string)
    : outcome (bool * Z3Solver) :=
  let type := Z3_mk_bool_sort in
  let v := Z3_mk_const var type in
  (m <- read null_dereference (model_ s) ;;
   let e := model_eval m v in
   let n := Z3_get_bool_value e in
   if n =? 1 then Done (true, s)
   else if n =? -1 then Done (false, s)
   else
     Done (false,
           set_error_ ("Z3 returned invalid value " +:+ to_string n +:+
                       " for boolean " +:+ var +:+ ".") s))%outcome.

(** One recorded pair: [value] is read first (by the assertion), then
    [addr]; either may have been left unwritten by Z3. *)
Definition record_pair (k v : expr) (addr_val_map : gmap Z BitVector)
    : outcome (gmap Z BitVector) :=
  (value <- read uninitialised_read (Z3_get_numeral_uint64 v) ;;
   _ <- assert_ (value <=? 255) ;;
   addr <- read uninitialised_read (Z3_get_numeral_uint64 k) ;;
   Done (<[addr := byte_bv value]> addr_val_map))%outcome.

(** The loop [while (kind == Z3_OP_STORE)]: returns the base that is
    reached and the pairs recorded on the way. *)
Fixpoint peel_stores (e : expr) (addr_val_map : gmap Z BitVector)
    : outcome (expr * gmap Z BitVector) :=
  match e with
  | Z3_app Z3_OP_STORE _ es =>
      match es with
      | e0 :: k :: v :: _ =>
          match record_pair k v addr_val_map with
          | Done addr_val_map => peel_stores e0 addr_val_map
          | Halt why => Halt why
          end
      | _ => Halt z3_error
      end
  | _ => Done (e, addr_val_map)
  end.

(** The loop over the entries of a function interpretation. *)
Fixpoint record_entries (l : list func_entry) (addr_val_map : gmap Z BitVector)
    : outcome (gmap Z BitVector) :=
  match l with
  | [] => Done addr_val_map
  | entry :: rest =>
      (k <- read z3_error (nth_error (entry_args entry) 0) ;;
       addr_val_map <- record_pair k (entry_value entry) addr_val_map ;;
       record_entries rest addr_val_map)%outcome
  end.

Definition msg_array_map : string :=
  "[z3] Don't know how to handle Z3_OP_ARRAY_MAP".
Definition msg_no_parse : string :=
  "[z3] Couldn't parse Z3's AST for array model; may have spurious CEG. ".

(** [get_model_array]: the mapping, the default byte, and the lines written
    to [cout]. *)
Definition get_model_array (s : Z3Solver) (var : string)
    (key_bits value_bits : Z)
    : outcome (gmap Z BitVector * Z * list string) :=
  let type := Z3_mk_array_sort (bv_sort key_bits) (bv_sort value_bits) in
  let v := Z3_mk_const var type in
  (m <- read null_dereference (model_ s) ;;
   let e := model_eval m v in
   r <- peel_stores e ∅ ;;
   let e := fst r in
   let addr_val_map := snd r in
   kind <- read z3_error (Z3_get_decl_kind e) ;;
   match kind with
   | Z3_OP_CONST_ARRAY =>
       arg0 <- read z3_error (arg e 0) ;;
       value <- read uninitialised_read (Z3_get_numeral_uint64 arg0) ;;
       _ <- assert_ (value <=? 255) ;;
       Done (addr_val_map, value mod 256, [])
   | Z3_OP_AS_ARRAY =>
       model_fd <- read z3_error (Z3_get_decl_func_decl_parameter e) ;;
       let fun_interp := get_func_interp m model_fd in
       addr_val_map <- record_entries (entries fun_interp) addr_val_map ;;
       let default_value := else_value fun_interp in
       Done (addr_val_map, expr_to_uint8 default_value, [])
   | Z3_OP_ARRAY_MAP =>
       Done (addr_val_map, 0, [msg_array_map; msg_no_parse])
   | _ =>
       (* The counterexample could be spurious, but we'll figure that out
          later. *)
       Done (addr_val_map, 0, [msg_no_parse])
   end)%outcome.

(** *** Notions used to state the properties *)

(** The constraints that lowering a term pushes: one guard per signed
    division met. *)
Definition guards_of (l : list SymBitVector) : list SymBool :=
  map (fun b => divisor_guard (width_ b) b) l.

(** Between [ec] and [ec'] the converter pushed the guards of the divisors
    [l] and nothing else.  The order of the guards and how often each one
    occurs are left open: the order in which the operands of a call are
    lowered is the compiler's choice. *)
Definition pushed (ec ec' : ExprConverter) (l : list SymBitVector) : Prop :=
  (forall g, In g (constraints_ ec') <->
             In g (constraints_ ec) \/ In g (guards_of l))
  /\ (l = [] -> constraints_ ec' = constraints_ ec).

(** The converter after it has pushed the constraints [l]. *)
Definition emit (ec : ExprConverter) (l : list SymBool) : ExprConverter :=
  {| ec_error_ := ec_error_ ec; constraints_ := constraints_ ec ++ l |}.

(** A fresh converter, as each round of the worklist builds one. *)
Definition fresh_ec : ExprConverter := {| ec_error_ := ""; constraints_ := [] |}.

(** The Z3 term of a constraint, when its lowering completes. *)
Definition term_of (c : SymBool) : option expr :=
  match visit_bool c fresh_ec with
  | Done (t, _) => Some t
  | Halt _ => None
  end.

Definition term_of_bv (b : SymBitVector) : option expr :=
  match visit_bv b fresh_ec with
  | Done (t, _) => Some t
  | Halt _ => None
  end.

(** Every load of [stop_now_] before the [n]-th read [false]. *)
Definition quiet (n : nat) : Prop :=
  forall k : nat, (k < n)%nat -> interrupt k = false.

(** The solver stopped on a load that read [true], the last one it made. *)
Definition interrupted (s : Z3Solver) : Prop :=
  error_ s = "External interrupt." /\
  exists k : nat, loads_ s = S k /\ interrupt k = true /\ quiet k.

(** What holds of the solver object while [is_sat] lowers: nothing was
    reported, no model is held, and every load of the flag read [false]. *)
Definition lowering (s : Z3Solver) : Prop :=
  error_ s = "" /\ model_ s = None /\ quiet (loads_ s).

(** What holds of it when [is_sat] returns [false] before the solver runs:
    a load of the flag read [true], or a constraint failed to typecheck. *)
Definition gave_up (s : Z3Solver) : Prop :=
  model_ s = None /\
  (interrupted s \/
   (quiet (loads_ s) /\
    exists it, tc it <> 1 /\ error_ s = typecheck_message it)).


(** The constraints that [is_sat] starts its worklist from. *)
Definition worklist (constraints : list SymBool) : list SymBool :=
  split_constraints (constraints ++ get_axioms constraints).

(** The call [is_sat s constraints] gets as far as [solver_.check()], which
    it calls on the solver object [s1]. *)
Definition reaches_solver (s : Z3Solver) (constraints : list SymBool)
    (s1 : Z3Solver) : Prop :=
  exists s0,
    lowering_loop (rounds (worklist constraints)) (worklist constraints)
      (reset_state s) = Some (Done (Next s0))
    /\ delete (current_after (worklist constraints)) = Done tt
    /\ check_abort s0 = (false, s1).

(** What is assumed of Z3: a model that [check] returns makes every
    assertion true; a negation that is true has an argument that is not; and
    a term whose value is the zero numeral of [w] bits equals that numeral. *)
Definition Z3_sound (model_eval : model -> expr -> expr) : Prop :=
  forall assertions m, Z3_solver_check assertions = sat m ->
    forall t, In t assertions -> Z3_get_bool_value (model_eval m t) = 1.

Definition Z3_not_eq (model_eval : model -> expr -> expr) : Prop :=
  (forall m t, Z3_get_bool_value (model_eval m (Z3_mk_not t)) = 1 ->
               Z3_get_bool_value (model_eval m t) <> 1)
  /\ (forall m t w, model_eval m t = bv_val 0 w ->
        Z3_get_bool_value (model_eval m (Z3_mk_eq t (bv_val 0 w))) = 1).

(** What is assumed of Z3 when it decodes the bit-vector constant [var] of
    [bits] bits whose value in the model is [val]: the signed integer of any
    window of its bits is the one that SMT-LIB defines. *)
Definition Z3_windows (m : model) (var : string) (bits val : Z) : Prop :=
  forall hi lo, 0 <= lo <= hi -> hi < bits ->
    model_eval m
      (Z3_mk_bv2int (Z3_mk_extract hi lo (Z3_mk_const var (bv_sort bits))) true)
    = Z3_numeral (signed (hi - lo + 1) (bits_of val hi lo)) Z3_mk_int_sort.

(** The array constant [var] is given the model value [e]. *)
Definition array_value (m : model) (var : string) (key_bits value_bits : Z)
    (e : expr) : Prop :=
  model_eval m
    (Z3_mk_const var (Z3_mk_array_sort (bv_sort key_bits) (bv_sort value_bits)))
  = e.

(** Addresses and values that [Z3_get_numeral_uint64] can read. *)
Definition uint64_pairs (ups : list (Z * Z)) : Prop :=
  Forall (fun p => 0 <= fst p < 2 ^ 64 /\ 0 <= snd p < 2 ^ 64) ups.

Definition all_bytes (ups : list (Z * Z)) : bool :=
  forallb (fun p => snd p <=? 255) ups.

(** Proof steps for the visitor: name the outcome of the next visit in the
    hypothesis and rewrite the goal with what is known of it. *)
Ltac visit_step :=
  match goal with
  | IH : (forall ec t ec', ?f ?x ec = Done (t, ec') -> _),
    H : context [match ?f ?x ?ec with _ => _ end] |- _ =>
      let E := fresh "E" in
      destruct (f x ec) as [[? ?] | ?] eqn:E; [| discriminate H];
      rewrite (IH _ _ _ E); clear IH
  | IH : (forall n ec t ec', ?f n ?x ec = Done (t, ec') -> _),
    H : context [match ?f ?n ?x ?ec with _ => _ end] |- _ =>
      let E := fresh "E" in
      destruct (f n x ec) as [[? ?] | ?] eqn:E; [| discriminate H];
      rewrite (IH _ _ _ _ E); clear IH
  end.

Ltac visit_done :=
  match goal with
  | H : Done _ = Done _ |- _ =>
      inversion H; subst; clear H;
      unfold emit, guards_of; simpl;
      repeat rewrite map_app; repeat rewrite <- app_assoc; simpl;
      try rewrite app_nil_r; reflexivity
  | H : Halt _ = Done _ |- _ => discriminate H
  end.

(** Proof step for the shapes that the converter supports. *)
Ltac supported_step :=
  match goal with
  | IH : (forall ec, match ?f ?x ec with _ => _ end)
    |- context [match ?f ?x ?ec0 with _ => _ end] =>
      specialize (IH ec0);
      destruct (f x ec0) as [[? ?] | ?];
      rewrite IH; clear IH; simpl
  | IH : (forall n ec, match ?f n ?x ec with _ => _ end)
    |- context [match ?f ?n0 ?x ?ec0 with _ => _ end] =>
      specialize (IH n0 ec0);
      destruct (f n0 x ec0) as [[? ?] | ?];
      rewrite IH; clear IH; simpl
  end.


(** * Properties *)

(** ** [split_constraints] *)

Lemma split_step_AND (split : list SymBool) (a b : SymBool) :
  split_step split (SymBoolAnd a b) = split_constraints [a; b] ++ split.
Proof. reflexivity. Qed.

Lemma split_step_other (split : list SymBool) (it : SymBool) :
  is_AND it = false -> split_step split it = split ++ [it].
Proof. destruct it; simpl; intros H; try reflexivity; discriminate H. Qed.

Lemma split_step_flat (it : SymBool) :
  forall split, Forall (fun c => is_AND c = false) split ->
    Forall (fun c => is_AND c = false) (split_step split it).
Proof.
  induction it; intros acc Hs;
    try (rewrite split_step_other by reflexivity;
         apply Forall_app; split; [assumption | repeat constructor]).
  simpl. apply Forall_app. split; [| assumption].
  apply IHit2, IHit1. constructor.
Qed.

Lemma split_step_holds (atom : SymBool -> bool) (it : SymBool) :
  forall split,
    forallb (conj_holds atom) (split_step split it)
    = conj_holds atom it && forallb (conj_holds atom) split.
Proof.
  induction it; intros acc;
    try (rewrite split_step_other by reflexivity;
         rewrite forallb_app; simpl; rewrite andb_true_r; apply andb_comm).
  simpl. rewrite forallb_app, IHit2, IHit1. simpl.
  rewrite andb_true_r. f_equal. apply andb_comm.
Qed.

Lemma split_fold_flat (constraints : list SymBool) :
  forall split, Forall (fun c => is_AND c = false) split ->
    Forall (fun c => is_AND c = false) (fold_left split_step constraints split).
Proof.
  induction constraints as [| it rest IH]; intros acc Hs; simpl.
  - assumption.
  - apply IH, split_step_flat, Hs.
Qed.

Lemma split_fold_holds (atom : SymBool -> bool) (constraints : list SymBool) :
  forall split,
    forallb (conj_holds atom) (fold_left split_step constraints split)
    = forallb (conj_holds atom) constraints && forallb (conj_holds atom) split.
Proof.
  induction constraints as [| it rest IH]; intros acc; simpl.
  - reflexivity.
  - rewrite IH, split_step_holds.
    rewrite andb_assoc. f_equal. apply andb_comm.
Qed.

(** The elements that are not conjunctions stay at the back of the vector, in
    the order of the input; what the conjunctions give goes to the front. *)
Lemma split_fold_suffix (constraints : list SymBool) :
  forall front back, exists front',
    fold_left split_step constraints (front ++ back)
    = front' ++ back ++ List.filter (fun c => negb (is_AND c)) constraints.
Proof.
  induction constraints as [| it rest IH]; intros front back; simpl.
  - exists front. now rewrite app_nil_r.
  - destruct (is_AND it) eqn:Hit; simpl.
    + destruct it; try discriminate Hit.
      rewrite split_step_AND, app_assoc. apply IH.
    + rewrite split_step_other by assumption.
      rewrite <- app_assoc.
      destruct (IH front (back ++ [it])) as [front' Hf].
      exists front'. rewrite Hf. now rewrite <- app_assoc.
Qed.

Lemma split_fold_id (constraints : list SymBool) :
  Forall (fun c => is_AND c = false) constraints ->
  forall split, fold_left split_step constraints split = split ++ constraints.
Proof.
  induction 1 as [| it rest Hit _ IH]; intros acc; simpl.
  - now rewrite app_nil_r.
  - rewrite split_step_other by assumption.
    rewrite IH. now rewrite <- app_assoc.
Qed.

(** C4. For every sequence of constraints: no element of the result of
    [split_constraints] is a conjunction; the input elements that are not
    conjunctions pass through unchanged (they are the tail of the result, in
    their order); under any reading of the other nodes, the conjunction of
    the result is the conjunction of the input; and splitting the result
    again gives it back. *)
Theorem split_constraints_flattens (constraints : list SymBool) :
  Forall (fun c => is_AND c = false) (split_constraints constraints)
  /\ (exists front,
        split_constraints constraints
        = front ++ List.filter (fun c => negb (is_AND c)) constraints)
  /\ (forall c, In c constraints -> is_AND c = false ->
        In c (split_constraints constraints))
  /\ (forall atom,
        forallb (conj_holds atom) (split_constraints constraints)
        = forallb (conj_holds atom) constraints)
  /\ split_constraints (split_constraints constraints)
     = split_constraints constraints.
Proof.
  assert (Hflat : Forall (fun c => is_AND c = false)
                    (split_constraints constraints))
    by (apply split_fold_flat; constructor).
  assert (Hsuf : exists front,
             split_constraints constraints
             = front ++ List.filter (fun c => negb (is_AND c)) constraints).
  { destruct (split_fold_suffix constraints [] []) as [front Hf].
    exists front. exact Hf. }
  split; [exact Hflat |]. split; [exact Hsuf |]. split; [| split].
  - intros c Hin Hc. destruct Hsuf as [front ->].
    apply in_or_app. right. apply filter_In. split; [exact Hin |].
    now rewrite Hc.
  - intros atom. unfold split_constraints.
    rewrite split_fold_holds. simpl. apply andb_true_r.
  - unfold split_constraints at 1. now rewrite split_fold_id.
Qed.

(** ** The visitor *)

Lemma emit_nil (ec : ExprConverter) : emit ec [] = ec.
Proof. destruct ec. unfold emit. simpl. now rewrite app_nil_r. Qed.

Lemma emit_emit (ec : ExprConverter) (l1 l2 : list SymBool) :
  emit (emit ec l1) l2 = emit ec (l1 ++ l2).
Proof. unfold emit. simpl. now rewrite app_assoc. Qed.

Lemma guards_of_app (l1 l2 : list SymBitVector) :
  guards_of (l1 ++ l2) = guards_of l1 ++ guards_of l2.
Proof. apply map_app. Qed.

(** A divisor met inside a term holds fewer signed divisions than the term. *)
Lemma divisors_decrease :
  (forall bv b, In b (divisors_bv bv) ->
     (length (divisors_bv b) < length (divisors_bv bv))%nat)
  /\ (forall c b, In b (divisors_bool c) ->
     (length (divisors_bv b) < length (divisors_bool c))%nat)
  /\ (forall a b, In b (divisors_array a) ->
     (length (divisors_bv b) < length (divisors_array a))%nat)
  /\ (forall l n b, In b (divisors_args n l) ->
     (length (divisors_bv b) < length (divisors_args n l))%nat).
Proof.
  apply Sym_mutind; simpl; intros;
    try match goal with n : nat |- _ => destruct n; simpl in * end;
    repeat rewrite in_app_iff in *; repeat rewrite length_app;
    repeat match goal with
      | H : False |- _ => destruct H
      | H : _ \/ _ |- _ => destruct H
      | H : In ?b ?l, IH : forall b, In b ?l -> _ |- _ => apply IH in H
      | H : In ?b (divisors_args ?n ?l),
        IH : forall n b, In b (divisors_args n ?l) -> _ |- _ => apply IH in H
      end; subst; lia.
Qed.

(** Lowering does not depend on the converter it starts from: it yields the
    same term and pushes the guards of the signed divisions it met, in the
    order of the visit; the error slot is left as it was. *)
Lemma visit_emit :
  (forall bv ec t ec', visit_bv bv ec = Done (t, ec') ->
     forall ec0, visit_bv bv ec0 = Done (t, emit ec0 (guards_of (divisors_bv bv))))
  /\ (forall c ec t ec', visit_bool c ec = Done (t, ec') ->
     forall ec0,
       visit_bool c ec0 = Done (t, emit ec0 (guards_of (divisors_bool c))))
  /\ (forall a ec t ec', visit_array a ec = Done (t, ec') ->
     forall ec0,
       visit_array a ec0 = Done (t, emit ec0 (guards_of (divisors_array a))))
  /\ (forall l n ec ts ec', visit_args n l ec = Done (ts, ec') ->
     forall ec0,
       visit_args n l ec0 = Done (ts, emit ec0 (guards_of (divisors_args n l)))).
Proof.
  apply Sym_mutind; intros; simpl in *.
  all: try match goal with f : SymFunction |- _ =>
         destruct (args f) as [| ? [| ? [| ? [| ? ?]]]]; simpl in * end.
  all: try match goal with n : nat |- _ => destruct n; simpl in * end.
  all: unfold binop, unop, ternop, cbind, cret, chalt, push_back,
         set_ec_error in *; simpl in *.
  all: repeat visit_step.
  all: try match goal with vars : list SymVar |- _ =>
         destruct vars as [| ? [| ? [| ? [| ? ?]]]]; simpl in * end.
  all: try visit_done.
  all: match goal with
       | H : Done _ = Done _ |- _ =>
           inversion H; subst; now rewrite emit_nil
       end.
Qed.

Lemma visit_bool_emit (c : SymBool) (ec : ExprConverter) (t : expr)
    (ec' : ExprConverter) :
  visit_bool c ec = Done (t, ec') ->
  term_of c = Some t /\ ec' = emit ec (guards_of (divisors_bool c)).
Proof.
  intros H. destruct visit_emit as (_ & Hb & _).
  split.
  - unfold term_of. now rewrite (Hb _ _ _ _ H fresh_ec).
  - rewrite (Hb _ _ _ _ H ec) in H. now inversion H.
Qed.

Lemma term_of_visit (c : SymBool) (t : expr) :
  term_of c = Some t ->
  forall ec, visit_bool c ec = Done (t, emit ec (guards_of (divisors_bool c))).
Proof.
  unfold term_of. intros H ec.
  destruct (visit_bool c fresh_ec) as [[t' ec'] |] eqn:E; [| discriminate H].
  inversion H; subst. destruct visit_emit as (_ & Hb & _).
  apply (Hb _ _ _ _ E).
Qed.

(** The guard of a divisor holds the signed divisions of the divisor. *)
Lemma divisors_guard (w : Z) (b : SymBitVector) :
  divisors_bool (divisor_guard w b) = divisors_bv b.
Proof. simpl. apply app_nil_r. Qed.



(** ** The worklist of [is_sat] *)

Lemma check_abort_false (s s' : Z3Solver) :
  check_abort s = (false, s') ->
  interrupt (loads_ s) = false /\ error_ s' = error_ s /\
  model_ s' = model_ s /\ solver_ s' = solver_ s /\
  loads_ s' = S (loads_ s).
Proof.
  unfold check_abort, load_stop_now_. simpl.
  destruct (interrupt (loads_ s)) eqn:E; intros H; inversion H; subst; simpl.
  repeat split; reflexivity.
Qed.

Lemma check_abort_true (s s' : Z3Solver) :
  check_abort s = (true, s') ->
  interrupt (loads_ s) = true /\ error_ s' = "External interrupt." /\
  model_ s' = model_ s /\ solver_ s' = solver_ s /\
  loads_ s' = S (loads_ s).
Proof.
  unfold check_abort, load_stop_now_. simpl.
  destruct (interrupt (loads_ s)) eqn:E; intros H; inversion H; subst; simpl.
  repeat split; reflexivity.
Qed.

Lemma quiet_S (n : nat) : quiet n -> interrupt n = false -> quiet (S n).
Proof.
  intros Hq Hn k Hk. destruct (Nat.eq_dec k n) as [-> | Hne];
    [assumption | apply Hq; lia].
Qed.

Lemma check_abort_lowering (s s' : Z3Solver) :
  lowering s -> check_abort s = (false, s') ->
  lowering s' /\ solver_ s' = solver_ s.
Proof.
  intros (He & Hm & Hq) H.
  destruct (check_abort_false _ _ H) as (Hi & He' & Hm' & Hs' & Hl').
  repeat split; try congruence.
  rewrite Hl'. now apply quiet_S.
Qed.

Lemma check_abort_gave_up (s s' : Z3Solver) :
  lowering s -> check_abort s = (true, s') -> gave_up s'.
Proof.
  intros (He & Hm & Hq) H.
  destruct (check_abort_true _ _ H) as (Hi & He' & Hm' & Hs' & Hl').
  split; [congruence |]. left. split; [assumption |].
  exists (loads_ s). repeat split; assumption.
Qed.

Lemma typecheck_message_nonempty (it : SymBool) : typecheck_message it <> "".
Proof. unfold typecheck_message. simpl. discriminate. Qed.

(** One round over [current]: either every constraint was typechecked,
    lowered and asserted, in order, and its guards were pushed; or the call
    returned [false]. *)
Lemma lower_each_spec (current : list SymBool) :
  forall ec s, ec_error_ ec = "" -> lowering s ->
    match lower_each current ec s with
    | Halt _ => True
    | Done (Next (ec', s')) =>
        lowering s' /\
        ec' = emit ec (flat_map (fun c => guards_of (divisors_bool c)) current) /\
        exists ts, solver_ s' = solver_ s ++ ts /\
          Forall2 (fun c t => term_of c = Some t /\ tc c = 1) current ts
    | Done (Return b s') => b = false /\ gave_up s'
    end.
Proof.
  induction current as [| it rest IH]; intros ec s Hec Hs; simpl.
  - split; [assumption |]. split; [now rewrite emit_nil |].
    exists []. split; [now rewrite app_nil_r | constructor].
  - destruct (check_abort s) as [[|] s1] eqn:Hab.
    { split; [reflexivity |]. eapply check_abort_gave_up; eassumption. }
    destruct (check_abort_lowering _ _ Hs Hab) as (Hs1 & Hsol1).
    destruct (tc it =? 1) eqn:Htc; simpl.
    2:{ split; [reflexivity |]. destruct Hs1 as (He1 & Hm1 & Hq1).
        split; [assumption |]. right. split; [assumption |].
        exists it. split; [now apply Z.eqb_neq | reflexivity]. }
    apply Z.eqb_eq in Htc.
    destruct (visit_bool it ec) as [[t ec1] | why] eqn:Hv; [| exact I].
    destruct (visit_bool_emit _ _ _ _ Hv) as (Ht & ->).
    unfold has_error. simpl. rewrite Hec. simpl.
    specialize (IH (emit ec (guards_of (divisors_bool it)))
                   (solver_add t s1) Hec).
    assert (Hs2 : lowering (solver_add t s1)) by exact Hs1.
    specialize (IH Hs2).
    destruct (lower_each rest _ _) as [[[ec' s'] | b s'] | why];
      [| assumption | exact I].
    destruct IH as (Hs' & -> & ts & Hts & HF).
    split; [assumption |]. split; [now rewrite emit_emit |].
    exists (t :: ts). split.
    + rewrite Hts. simpl. rewrite Hsol1. now rewrite <- app_assoc.
    + constructor; [split; assumption | assumption].
Qed.

Lemma rounds_next (current : list SymBool) :
  current <> [] ->
  (rounds (flat_map (fun c => guards_of (divisors_bool c)) current)
   < rounds current)%nat.
Proof.
  intros Hne. unfold rounds at 2.
  destruct current as [| c0 rest]; [congruence |].
  set (current := c0 :: rest) in *.
  set (next := flat_map _ current).
  unfold rounds. destruct next as [| g next'] eqn:Hnext; [lia |].
  apply -> Nat.succ_lt_mono.
  apply list_max_lt; [discriminate |].
  apply List.Forall_forall. intros n Hn.
  apply in_map_iff in Hn. destruct Hn as (g' & <- & Hg').
  rewrite <- Hnext in Hg'. unfold next in Hg'.
  apply in_flat_map in Hg'. destruct Hg' as (c & Hc & Hg').
  unfold guards_of in Hg'. apply in_map_iff in Hg'.
  destruct Hg' as (b & <- & Hb).
  rewrite divisors_guard.
  destruct divisors_decrease as (_ & Hd & _).
  apply Hd in Hb.
  assert (Hle : (length (divisors_bool c)
                 <= list_max (map (fun c => length (divisors_bool c)) current))%nat).
  { assert (HF := proj1 (list_max_le
       (map (fun c => length (divisors_bool c)) current) _) (Nat.le_refl _)).
    rewrite List.Forall_forall in HF. apply HF.
    apply in_map_iff. exists c. split; [reflexivity | assumption]. }
  lia.
Qed.

Lemma term_of_guard (w : Z) (b : SymBitVector) (t : expr) :
  term_of (divisor_guard w b) = Some t ->
  exists tb, term_of_bv b = Some tb /\
             t = Z3_mk_not (Z3_mk_eq tb (bv_val 0 w)).
Proof.
  unfold term_of, term_of_bv, divisor_guard, bv_neq. simpl.
  unfold unop, binop, cbind, cret.
  destruct (visit_bv b fresh_ec) as [[tb e] | why]; intros H;
    inversion H; subst. eauto.
Qed.

Lemma Forall2_In_left {A B : Type} (P : A -> B -> Prop) (l : list A)
    (l' : list B) (x : A) :
  Forall2 P l l' -> In x l -> exists y, In y l' /\ P x y.
Proof.
  induction 1 as [| a b l l' Hab _ IH]; intros Hin; [destruct Hin |].
  destruct Hin as [-> | Hin].
  - exists b. split; [now left | assumption].
  - destruct (IH Hin) as (y & Hy & HP). exists y. split; [now right | assumption].
Qed.

Lemma lowering_loop_nil (fuel : nat) (s : Z3Solver) :
  lowering_loop fuel [] s = Some (Done (Next s)).
Proof. destruct fuel; reflexivity. Qed.

Lemma lowering_loop_S (fuel : nat) (current : list SymBool) (s : Z3Solver) :
  current <> [] ->
  lowering_loop (S fuel) current s =
  let (stop, s1) := check_abort s in
  if stop then Some (Done (Return false s1))
  else
    match lower_each current fresh_ec s1 with
    | Halt why => Some (Halt why)
    | Done (Return b s2) => Some (Done (Return b s2))
    | Done (Next (ec, s2)) => lowering_loop fuel (constraints_ ec) s2
    end.
Proof. destruct current; [congruence | reflexivity]. Qed.

Lemma rounds_pos (current : list SymBool) :
  current <> [] -> (0 < rounds current)%nat.
Proof. destruct current; [congruence | simpl; lia]. Qed.

(** The worklist ends within [rounds current] rounds, whatever fuel it is
    given beyond that.  When it runs to its end, every constraint it started
    from and the guard of every signed division in them were typechecked,
    lowered and asserted. *)
Lemma lowering_loop_spec (fuel : nat) :
  forall current s, lowering s -> (rounds current <= fuel)%nat ->
  exists r,
    (forall fuel', (rounds current <= fuel')%nat ->
       lowering_loop fuel' current s = Some r) /\
    match r with
    | Halt _ => True
    | Done (Next s') =>
        lowering s' /\
        exists ts, solver_ s' = solver_ s ++ ts /\
          forall c, In c current ->
            (exists t, term_of c = Some t /\ In t ts /\ tc c = 1) /\
            (forall b, In b (divisors_bool c) ->
               exists tb, term_of_bv b = Some tb /\
                 In (Z3_mk_not (Z3_mk_eq tb (bv_val 0 (width_ b)))) ts /\
                 tc (divisor_guard (width_ b) b) = 1)
    | Done (Return b s') => b = false /\ gave_up s'
    end.
Proof.
  induction fuel as [| fuel IH]; intros current s Hs Hr.
  - destruct current as [| c rest]; [| simpl in Hr; lia].
    exists (Done (Next s)). split; [intros; apply lowering_loop_nil |].
    split; [assumption |]. exists []. split; [now rewrite app_nil_r |].
    intros c [].
  - destruct current as [| c0 rest].
    { exists (Done (Next s)). split; [intros; apply lowering_loop_nil |].
      split; [assumption |]. exists []. split; [now rewrite app_nil_r |].
      intros c []. }
    remember (c0 :: rest) as current eqn:Hcur.
    assert (Hne : current <> []) by (subst; discriminate).
    assert (Hpos := rounds_pos current Hne).
    clear Hcur c0 rest.
    destruct (check_abort s) as [[|] s1] eqn:Hab.
    { exists (Done (Return false s1)). split.
      - intros [| f] Hf; [lia |]. rewrite lowering_loop_S by assumption.
        now rewrite Hab.
      - split; [reflexivity |]. eapply check_abort_gave_up; eassumption. }
    destruct (check_abort_lowering _ _ Hs Hab) as (Hs1 & Hsol1).
    assert (Hround := lower_each_spec current fresh_ec s1 eq_refl Hs1).
    destruct (lower_each current fresh_ec s1)
      as [[[ec' s2] | b s2] | why] eqn:Hle.
    + destruct Hround as (Hs2 & -> & ts1 & Hts1 & HF).
      assert (Hlt := rounds_next current Hne).
      set (next := flat_map (fun c => guards_of (divisors_bool c)) current)
        in *.
      destruct (IH next s2 Hs2 ltac:(lia)) as (r & Hr2 & Hprop).
      exists r. split.
      * intros [| f] Hf; [lia |]. rewrite lowering_loop_S by assumption.
        rewrite Hab, Hle. simpl. apply Hr2. lia.
      * destruct r as [[s' | b s'] | why]; [| assumption | exact I].
        destruct Hprop as (Hs' & ts2 & Hts2 & Hnext).
        split; [assumption |]. exists (ts1 ++ ts2). split.
        { rewrite Hts2, Hts1, Hsol1. now rewrite <- app_assoc. }
        intros c Hc. split.
        { destruct (Forall2_In_left _ _ _ _ HF Hc) as (t & Ht & Htm & Htc).
          exists t. repeat split; try assumption.
          apply in_or_app. now left. }
        intros b Hb.
        assert (Hg : In (divisor_guard (width_ b) b) next).
        { apply in_flat_map. exists c. split; [assumption |].
          unfold guards_of. apply in_map_iff. exists b. now split. }
        destruct (Hnext _ Hg) as ((t & Ht & Hin & Htc) & _).
        destruct (term_of_guard _ _ _ Ht) as (tb & Htb & ->).
        exists tb. repeat split; try assumption.
        apply in_or_app. now right.
    + exists (Done (Return b s2)). split.
      * intros [| f] Hf; [lia |]. rewrite lowering_loop_S by assumption.
        now rewrite Hab, Hle.
      * assumption.
    + exists (Halt why). split; [| exact I].
      intros [| f] Hf; [lia |]. rewrite lowering_loop_S by assumption.
      now rewrite Hab, Hle.
Qed.

(** ** [is_sat] as a whole *)

Lemma reset_lowering (s : Z3Solver) : lowering (reset_state s).
Proof. repeat split. intros k Hk. simpl in Hk. lia. Qed.

Lemma is_sat_unfold (s : Z3Solver) (constraints : list SymBool) :
  exists r,
    (forall fuel, (rounds (worklist constraints) <= fuel)%nat ->
       lowering_loop fuel (worklist constraints) (reset_state s) = Some r)
    /\ (forall fuel, (rounds (worklist constraints) <= fuel)%nat ->
          is_sat_fuel fuel s constraints =
          Some match r with
               | Halt why => Halt why
               | Done (Return b s') => Done (b, s')
               | Done (Next s') =>
                   match worklist constraints with
                   | [] => Halt invalid_delete
                   | _ :: _ => run_solver s'
                   end
               end)
    /\ match r with
       | Halt _ => True
       | Done (Next s') =>
           lowering s' /\
           exists ts, solver_ s' = ts /\
             forall c, In c (worklist constraints) ->
               (exists t, term_of c = Some t /\ In t ts /\ tc c = 1) /\
               (forall b, In b (divisors_bool c) ->
                  exists tb, term_of_bv b = Some tb /\
                    In (Z3_mk_not (Z3_mk_eq tb (bv_val 0 (width_ b)))) ts /\
                    tc (divisor_guard (width_ b) b) = 1)
       | Done (Return b s') => b = false /\ gave_up s'
       end.
Proof.
  destruct (lowering_loop_spec _ (worklist constraints) (reset_state s)
              (reset_lowering s) (Nat.le_refl _)) as (r & Hr & Hprop).
  exists r. split; [exact Hr |]. split.
  - intros fuel Hf. unfold is_sat_fuel. fold (worklist constraints).
    rewrite (Hr fuel Hf). destruct r as [[s' | b s'] | why];
      try reflexivity.
    now destruct (worklist constraints).
  - destruct r as [[s' | b s'] | why]; exact Hprop.
Qed.

Lemma run_solver_spec (s : Z3Solver) :
  lowering s ->
  match run_solver s with
  | Halt why =>
      why = assertion_failed /\ exists s1, check_abort s = (false, s1) /\
      Z3_solver_check (solver_ s1) = out_of_enum
  | Done (true, s') =>
      exists s1 m, check_abort s = (false, s1) /\ lowering s1 /\
        Z3_solver_check (solver_ s1) = sat m /\ s' = set_model_ (Some m) s1
  | Done (false, s') =>
      model_ s' = None /\ solver_ s' = solver_ s /\
      (interrupted s' \/ (quiet (loads_ s') /\
         exists s1, check_abort s = (false, s1) /\
           match Z3_solver_check (solver_ s1) with
           | unsat => s' = s1
           | unknown => s' = set_error_ "z3 gave up." s1
           | threw what =>
               s' = set_error_ ("Z3 encountered error: " +:+ what_of_copy what
                                +:+ endl) s1
           | _ => False
           end))
  end.
Proof.
  intros Hs. unfold run_solver.
  destruct (check_abort s) as [[|] s1] eqn:Hab.
  - destruct (check_abort_true _ _ Hab) as (Hi & He & Hm & Hsol & Hl).
    destruct Hs as (_ & Hm0 & Hq).
    split; [congruence |]. split; [assumption |]. left.
    split; [assumption |]. exists (loads_ s). now repeat split.
  - destruct (check_abort_lowering _ _ Hs Hab) as (Hs1 & Hsol).
    destruct Hs1 as (He1 & Hm1 & Hq1).
    destruct (Z3_solver_check (solver_ s1)) as [| m | | | what] eqn:Hc.
    + repeat split; try assumption. right. split; [assumption |].
      exists s1. split; [reflexivity |]. now rewrite Hc.
    + exists s1, m. repeat split; assumption.
    + repeat split; try assumption. right. split; [assumption |].
      exists s1. split; [reflexivity |]. now rewrite Hc.
    + split; [reflexivity |]. exists s1. now split.
    + repeat split; try assumption. right. split; [assumption |].
      exists s1. split; [reflexivity |]. now rewrite Hc.
Qed.

Lemma is_sat_returns (s : Z3Solver) (constraints : list SymBool) (b : bool)
    (s' : Z3Solver) :
  is_sat s constraints = Some (Done (b, s')) ->
  (b = false /\ gave_up s')
  \/ (exists s0, lowering s0 /\ worklist constraints <> [] /\
        lowering_loop (rounds (worklist constraints)) (worklist constraints)
          (reset_state s) = Some (Done (Next s0)) /\
        run_solver s0 = Done (b, s') /\
        forall c, In c (worklist constraints) ->
          (exists t, term_of c = Some t /\ In t (solver_ s0) /\ tc c = 1) /\
          (forall d, In d (divisors_bool c) ->
             exists td, term_of_bv d = Some td /\
               In (Z3_mk_not (Z3_mk_eq td (bv_val 0 (width_ d)))) (solver_ s0) /\
               tc (divisor_guard (width_ d) d) = 1)).
Proof.
  intros H. destruct (is_sat_unfold s constraints) as (r & Hloop & Hr & Hprop).
  unfold is_sat in H. fold (worklist constraints) in H.
  rewrite (Hr _ (Nat.le_refl _)) in H.
  destruct r as [[s0 | b0 s0] | why].
  - assert (Hne : worklist constraints <> []).
    { intros E. rewrite E in H. discriminate H. }
    assert (Hrun : run_solver s0 = Done (b, s')).
    { destruct (worklist constraints); [congruence | now inversion H]. }
    right. exists s0. destruct Hprop as (Hs0 & ts & <- & Hall).
    split; [exact Hs0 |]. split; [exact Hne |].
    split; [apply Hloop, Nat.le_refl |].
    split; [exact Hrun | exact Hall].
  - inversion H; subst. left. exact Hprop.
  - discriminate H.
Qed.

(** C10. Every call of [is_sat] starts from the reset state (empty error
    slot, no model handle, interrupt flag cleared), so its result does not
    depend on what the solver object held; the call ends; and when it
    returns, it returns [true] exactly when a model handle is held: a return
    of [false] leaves none, and the handle held after [true] is the model
    that [check] gave for the asserted terms. *)
Theorem is_sat_true_iff_model (s : Z3Solver) (constraints : list SymBool) :
  (error_ (reset_state s) = "" /\ model_ (reset_state s) = None /\
   stop_now_ (reset_state s) = false /\
   forall s2, is_sat s constraints = is_sat s2 constraints)
  /\ (exists r, is_sat s constraints = Some r /\
        forall fuel, (rounds (worklist constraints) <= fuel)%nat ->
          is_sat_fuel fuel s constraints = Some r)
  /\ (forall b s', is_sat s constraints = Some (Done (b, s')) ->
        (b = true <-> model_ s' <> None) /\
        (b = false -> model_ s' = None) /\
        (b = true -> exists m, model_ s' = Some m /\
                       Z3_solver_check (solver_ s') = sat m)).
Proof.
  split; [repeat split |]. split.
  - destruct (is_sat_unfold s constraints) as (r & _ & Hr & _).
    eexists. split; [apply (Hr _ (Nat.le_refl _)) | exact Hr].
  - intros b s' H.
    destruct (is_sat_returns _ _ _ _ H) as [(-> & Hm & _) | (s0 & Hs0 & _ & _ & Hrun & _)].
    + rewrite Hm. split; [split; [discriminate | congruence] |].
      split; [reflexivity | discriminate].
    + assert (Hspec := run_solver_spec s0 Hs0). rewrite Hrun in Hspec.
      destruct b.
      * destruct Hspec as (s1 & m & _ & _ & Hc & ->). simpl.
        split; [split; [discriminate | reflexivity] |].
        split; [discriminate |]. intros _. now exists m.
      * destruct Hspec as (Hm & _). rewrite Hm.
        split; [split; [discriminate | congruence] |].
        split; [reflexivity | discriminate].
Qed.

(** C2. When a call of [is_sat] gets as far as [solver_.check()], called on
    the solver object [s1] (the worklist was lowered and the [delete] after
    it was of a vector from [new]): on [unsat] it returns [false], with no
    model and no error; on [sat] it returns [true] and holds the model; on
    [unknown] it returns [false] with the error "z3 gave up." and no model;
    a value outside the enumeration fails an assertion; an exception is
    caught, by value, and reported in the error slot with [false] and the
    message of the base class. *)
Theorem is_sat_classifies (s : Z3Solver) (constraints : list SymBool)
    (s1 : Z3Solver) :
  reaches_solver s constraints s1 ->
  (Z3_solver_check (solver_ s1) = unsat ->
     exists s', is_sat s constraints = Some (Done (false, s')) /\
       model_ s' = None /\ error_ s' = "")
  /\ (forall m, Z3_solver_check (solver_ s1) = sat m ->
     exists s', is_sat s constraints = Some (Done (true, s')) /\
       model_ s' = Some m /\ error_ s' = "")
  /\ (Z3_solver_check (solver_ s1) = unknown ->
     exists s', is_sat s constraints = Some (Done (false, s')) /\
       model_ s' = None /\ error_ s' = "z3 gave up.")
  /\ (Z3_solver_check (solver_ s1) = out_of_enum ->
     is_sat s constraints = Some (Halt assertion_failed))
  /\ (forall what, Z3_solver_check (solver_ s1) = threw what ->
     exists s', is_sat s constraints = Some (Done (false, s')) /\
       model_ s' = None /\
       error_ s' = "Z3 encountered error: std::exception" +:+ endl).
Proof.
  intros (s0 & Hloop & Hdel & Hab).
  destruct (is_sat_unfold s constraints) as (r & Hr & _ & Hprop).
  rewrite (Hr _ (Nat.le_refl _)) in Hloop. inversion Hloop; subst; clear Hloop.
  destruct Hprop as (Hs0 & _).
  destruct (check_abort_lowering _ _ Hs0 Hab) as ((He1 & Hm1 & _) & _).
  assert (Hsat : is_sat s constraints = Some (run_solver s0)).
  { unfold is_sat, is_sat_fuel. fold (worklist constraints).
    now rewrite (Hr _ (Nat.le_refl _)), Hdel. }
  rewrite Hsat. unfold run_solver. rewrite Hab.
  repeat split.
  - intros ->. now exists s1.
  - intros m ->. eexists. split; [reflexivity |]. now split.
  - intros ->. eexists. split; [reflexivity |]. now split.
  - now intros ->.
  - intros what ->. eexists. split; [reflexivity |]. now split.
Qed.

(** C3, as the code has it. The interrupt flag is cleared when [is_sat]
    starts, so what it held before the call has no effect.  During the call
    the flag is loaded at the start of each round of the worklist, before
    each constraint of a round and just before [solver_.check()]; a load that
    reads [true] makes the call return [false] with the error
    "External interrupt." at once: it is the last load, nothing more is
    lowered or asserted and no model is held. *)
Theorem is_sat_interrupt (s : Z3Solver) (constraints : list SymBool) :
  (forall s2, is_sat s constraints = is_sat s2 constraints)
  /\ (forall b s', is_sat s constraints = Some (Done (b, s')) ->
        forall k, (k < loads_ s')%nat -> interrupt k = true ->
          b = false /\ error_ s' = "External interrupt." /\
          model_ s' = None /\ loads_ s' = S k)
  /\ (forall fuel current s0, current <> [] ->
        interrupt (loads_ s0) = true ->
        lowering_loop (S fuel) current s0
        = Some (Done (Return false
                 (set_error_ "External interrupt." (load_stop_now_ s0)))))
  /\ (forall it rest ec s0, interrupt (loads_ s0) = true ->
        lower_each (it :: rest) ec s0
        = Done (Return false
                 (set_error_ "External interrupt." (load_stop_now_ s0))))
  /\ (forall s0, interrupt (loads_ s0) = true ->
        run_solver s0
        = Done (false, set_error_ "External interrupt." (load_stop_now_ s0))).
Proof.
  split; [reflexivity |]. split; [| repeat split].
  - intros b s' H k Hk Hi.
    assert (Hstop : forall s', gave_up s' -> (k < loads_ s')%nat ->
              error_ s' = "External interrupt." /\ model_ s' = None /\
              loads_ s' = S k).
    { intros s2 (Hm & [(He & k0 & Hl & Hi0 & Hq) | (Hq & _)]) Hk2.
      - repeat split; try assumption.
        destruct (Nat.eq_dec k k0) as [-> | Hne]; [assumption |].
        rewrite (Hq k) in Hi by lia. discriminate Hi.
      - rewrite (Hq k Hk2) in Hi. discriminate Hi. }
    destruct (is_sat_returns _ _ _ _ H)
      as [(-> & Hg) | (s0 & Hs0 & _ & _ & Hrun & _)].
    + split; [reflexivity |]. now apply Hstop.
    + assert (Hspec := run_solver_spec s0 Hs0). rewrite Hrun in Hspec.
      destruct b.
      * destruct Hspec as (s1 & m & _ & (_ & _ & Hq) & _ & ->).
        simpl in Hk. rewrite (Hq k Hk) in Hi. discriminate Hi.
      * destruct Hspec as (Hm & _ & Hcase).
        split; [reflexivity |]. apply Hstop; [| assumption].
        split; [assumption |].
        destruct Hcase as [Hint | (Hq & _)]; [now left |].
        rewrite (Hq k Hk) in Hi. discriminate Hi.
  - intros fuel current s0 Hne Hi. rewrite lowering_loop_S by assumption.
    unfold check_abort. simpl. now rewrite Hi.
  - intros it rest ec s0 Hi. simpl. unfold check_abort. simpl. now rewrite Hi.
  - intros s0 Hi. unfold run_solver, check_abort. simpl. now rewrite Hi.
Qed.

Lemma visit_bv_emit (bv : SymBitVector) (ec : ExprConverter) (t : expr)
    (ec' : ExprConverter) :
  visit_bv bv ec = Done (t, ec') ->
  term_of_bv bv = Some t /\ ec' = emit ec (guards_of (divisors_bv bv)).
Proof.
  intros H. destruct visit_emit as (Hb & _).
  split.
  - unfold term_of_bv. now rewrite (Hb _ _ _ _ H fresh_ec).
  - rewrite (Hb _ _ _ _ H ec) in H. now inversion H.
Qed.

(** A node that hands its two operands to one Z3 operator [mk] pushes what
    its operands push and nothing of its own. *)
Lemma binop_emit (mk : expr -> expr -> expr) (a b : SymBitVector)
    (ec : ExprConverter) (t : expr) (ec' : ExprConverter) :
  binop mk (visit_bv a) (visit_bv b) ec = Done (t, ec') ->
  (exists ta tb, term_of_bv a = Some ta /\ term_of_bv b = Some tb /\
                 t = mk ta tb) /\
  constraints_ ec'
  = constraints_ ec ++ guards_of (divisors_bv a ++ divisors_bv b).
Proof.
  unfold binop, cbind, cret. intros H.
  destruct (visit_bv a ec) as [[ta eca] | ?] eqn:Ea; [| discriminate H].
  destruct (visit_bv b eca) as [[tb ecb] | ?] eqn:Eb; [| discriminate H].
  inversion H; subst; clear H.
  destruct (visit_bv_emit _ _ _ _ Ea) as (Hta & ->).
  destruct (visit_bv_emit _ _ _ _ Eb) as (Htb & ->).
  split; [now exists ta, tb |].
  simpl. rewrite guards_of_app. now rewrite app_assoc.
Qed.

(** C1. Lowering a signed division pushes the guard "divisor != 0 of the
    divisor's width" onto the converter's vector of new constraints and
    returns the plain [bvsdiv] term; the worklist of [is_sat] then
    typechecks, lowers and asserts that guard before [check] is called.
    Hence, Z3 being sound, whenever [is_sat] returns [true] the guard of
    every signed division of the worklist is among the asserted terms and
    the model held gives its divisor a value that is not the zero numeral. *)
Theorem signed_division_guarded (s : Z3Solver) (constraints : list SymBool)
    (s' : Z3Solver) :
  Z3_sound model_eval -> Z3_not_eq model_eval ->
  is_sat s constraints = Some (Done (true, s')) ->
  (forall a b ec t ec',
     visit_bv (SymBitVectorSignDiv a b) ec = Done (t, ec') ->
     (exists ta tb, term_of_bv a = Some ta /\ term_of_bv b = Some tb /\
                    t = Z3_mk_bvsdiv ta tb) /\
     constraints_ ec'
     = constraints_ ec ++ divisor_guard (width_ b) b
                          :: guards_of (divisors_bv a ++ divisors_bv b))
  /\ exists m, model_ s' = Some m /\ Z3_solver_check (solver_ s') = sat m /\
       forall c, In c (worklist constraints) ->
       forall b, In b (divisors_bool c) ->
         tc (divisor_guard (width_ b) b) = 1 /\
         exists tb, term_of_bv b = Some tb /\
           In (Z3_mk_not (Z3_mk_eq tb (bv_val 0 (width_ b)))) (solver_ s') /\
           model_eval m tb <> bv_val 0 (width_ b).
Proof.
  intros Hsound (Hnot & Heq) H. split.
  - intros a b ec t ec' Hv. simpl in Hv. unfold cbind at 1 in Hv.
    unfold push_back in Hv.
    destruct (binop_emit _ _ _ _ _ _ Hv) as (Ht & Hc).
    split; [exact Ht |]. rewrite Hc. simpl. now rewrite <- app_assoc.
  - destruct (is_sat_returns _ _ _ _ H)
      as [(Hf & _) | (s0 & Hs0 & _ & _ & Hrun & Hall)]; [discriminate Hf |].
    assert (Hspec := run_solver_spec s0 Hs0). rewrite Hrun in Hspec.
    destruct Hspec as (s1 & m & Hab & _ & Hc & ->).
    destruct (check_abort_false _ _ Hab) as (_ & _ & _ & Hsol & _).
    exists m. simpl. split; [reflexivity |]. split; [exact Hc |].
    intros c Hin b Hb.
    destruct (Hall c Hin) as (_ & Hd).
    destruct (Hd b Hb) as (tb & Htb & Hg & Htc).
    split; [exact Htc |]. exists tb. split; [exact Htb |].
    rewrite Hsol. split; [exact Hg |].
    intros Hzero. rewrite <- Hsol in Hg.
    apply (Hnot m (Z3_mk_eq tb (bv_val 0 (width_ b)))).
    + now apply (Hsound _ _ Hc).
    + now apply Heq.
Qed.

(** With the flag never set, a round over constraints that typecheck and
    lower runs to its end. *)
Lemma lower_each_runs (current : list SymBool) (ts : list expr) :
  (forall k, interrupt k = false) ->
  Forall2 (fun c t => term_of c = Some t /\ tc c = 1) current ts ->
  forall ec s, ec_error_ ec = "" ->
    exists s',
      lower_each current ec s
      = Done (Next (emit ec (flat_map (fun c => guards_of (divisors_bool c))
                               current), s'))
      /\ solver_ s' = solver_ s ++ ts
      /\ error_ s' = error_ s /\ model_ s' = model_ s.
Proof.
  intros Hq HF. induction HF as [| it t rest ts' (Ht & Htc) _ IH];
    intros ec s Hec; simpl.
  - exists s. rewrite emit_nil, app_nil_r. now repeat split.
  - unfold check_abort. simpl. rewrite Hq. rewrite Htc. simpl.
    rewrite (term_of_visit _ _ Ht ec).
    unfold has_error. simpl. rewrite Hec. simpl.
    destruct (IH (emit ec (guards_of (divisors_bool it)))
                 (solver_add t (load_stop_now_ s)) Hec)
      as (s' & Hrun & Hsol & He & Hm).
    exists s'. rewrite Hrun, emit_emit. split; [reflexivity |].
    split; [| split; assumption].
    rewrite Hsol. simpl. now rewrite <- app_assoc.
Qed.

Lemma flat_map_nil {A B : Type} (f : A -> list B) (l : list A) :
  (forall x, In x l -> f x = []) -> flat_map f l = [].
Proof.
  induction l as [| x l IH]; intros H; simpl; [reflexivity |].
  rewrite (H x) by now left. apply IH. intros y Hy. apply H. now right.
Qed.

Lemma pushed_app (ec ec' : ExprConverter) (l : list SymBitVector) :
  constraints_ ec' = constraints_ ec ++ guards_of l -> pushed ec ec' l.
Proof.
  intros H. split.
  - intros g. rewrite H, in_app_iff. reflexivity.
  - intros ->. rewrite H. apply app_nil_r.
Qed.

(** C9. Unsigned division, unsigned remainder and signed remainder are
    lowered to the one Z3 operator and push no constraint of their own: what
    lowering pushes is the guards of the signed divisions met in the
    operands, and nothing when there is none.  So for constraints without
    signed division the asserted terms are the lowered constraints and
    nothing else, and [is_sat] returns [true] with whatever model Z3 gives
    for them. *)
Theorem only_signed_division_is_guarded :
  (forall a b ec t ec',
     visit_bv (SymBitVectorDiv a b) ec = Done (t, ec') ->
     (exists ta tb, term_of_bv a = Some ta /\ term_of_bv b = Some tb /\
                    t = Z3_mk_bvudiv ta tb) /\
     pushed ec ec' (divisors_bv a ++ divisors_bv b))
  /\ (forall a b ec t ec',
     visit_bv (SymBitVectorMod a b) ec = Done (t, ec') ->
     (exists ta tb, term_of_bv a = Some ta /\ term_of_bv b = Some tb /\
                    t = Z3_mk_bvurem ta tb) /\
     pushed ec ec' (divisors_bv a ++ divisors_bv b))
  /\ (forall a b ec t ec',
     visit_bv (SymBitVectorSignMod a b) ec = Done (t, ec') ->
     (exists ta tb, term_of_bv a = Some ta /\ term_of_bv b = Some tb /\
                    t = Z3_mk_bvsrem ta tb) /\
     pushed ec ec' (divisors_bv a ++ divisors_bv b))
  /\ (forall c ec t ec',
     visit_bool c ec = Done (t, ec') -> pushed ec ec' (divisors_bool c))
  /\ (forall s constraints ts m,
     (forall k, interrupt k = false) ->
     worklist constraints <> [] ->
     Forall2 (fun c t => term_of c = Some t /\ tc c = 1)
       (worklist constraints) ts ->
     (forall c, In c (worklist constraints) -> divisors_bool c = []) ->
     Z3_solver_check ts = sat m ->
     exists s', is_sat s constraints = Some (Done (true, s')) /\
       model_ s' = Some m /\ solver_ s' = ts).
Proof.
  assert (Hbin : forall f a b ec t ec',
            binop f (visit_bv a) (visit_bv b) ec = Done (t, ec') ->
            (exists ta tb, term_of_bv a = Some ta /\ term_of_bv b = Some tb /\
                           t = f ta tb) /\
            pushed ec ec' (divisors_bv a ++ divisors_bv b)).
  { intros f a b ec t ec' H.
    destruct (binop_emit _ _ _ _ _ _ H) as (Ht & Hc).
    split; [exact Ht | now apply pushed_app]. }
  split; [intros a b ec t ec' H; exact (Hbin _ _ _ _ _ _ H) |].
  split; [intros a b ec t ec' H; exact (Hbin _ _ _ _ _ _ H) |].
  split; [intros a b ec t ec' H; exact (Hbin _ _ _ _ _ _ H) |].
  split.
  { intros c ec t ec' H. apply pushed_app.
    now destruct (visit_bool_emit _ _ _ _ H) as (_ & ->). }
  intros s constraints ts m Hq Hne HF Hnone Hc.
  assert (Hsolve : forall s0, solver_ s0 = ts -> error_ s0 = "" ->
            exists s', Some (run_solver s0) = Some (Done (true, s')) /\
              model_ s' = Some m /\ solver_ s' = ts).
  { intros s0 Hs0 He0. unfold run_solver, check_abort. simpl.
    rewrite Hq. simpl. rewrite Hs0, Hc. eexists. split; [reflexivity |].
    now split. }
  unfold is_sat, is_sat_fuel. fold (worklist constraints).
  assert (Hdel : delete (current_after (worklist constraints)) = Done tt)
    by (destruct (worklist constraints); [congruence | reflexivity]).
  rewrite Hdel.
  destruct (rounds (worklist constraints)) as [| n] eqn:Hn;
    [apply rounds_pos in Hne; lia |].
  rewrite lowering_loop_S by assumption.
  unfold check_abort. simpl. rewrite Hq.
  destruct (lower_each_runs _ _ Hq HF fresh_ec
              (load_stop_now_ (reset_state s)) eq_refl)
    as (s2 & Hrun & Hsol & He & Hm).
  rewrite Hrun. rewrite (flat_map_nil _ _) by
    (intros c Hin; now rewrite (Hnone c Hin)).
  simpl. rewrite lowering_loop_nil. now apply Hsolve.
Qed.

(** C7, as the code has it. A universal quantification over one, two or
    three variables is lowered to the Z3 quantifier over those constants.
    With four or more variables (and with none) lowering fails the assertion
    after the body was lowered: the program halts, no error message is
    recorded, and [is_sat] returns only if it stopped before for an
    interrupt or a constraint that does not typecheck. *)
Theorem forall_lowering (vars : list SymVar) (a : SymBool) :
  (forall ec inside ec',
     visit_bool a ec = Done (inside, ec') ->
     (1 <= length vars <= 3)%nat ->
     visit_bool (SymBoolForAll vars a) ec
     = Done (Z3_forall (map (fun v => bv_const (name_ v) (size_ v)) vars)
               inside, ec'))
  /\ (forall ec,
     (length vars = 0 \/ 4 <= length vars)%nat ->
     visit_bool (SymBoolForAll vars a) ec
     = match visit_bool a ec with
       | Done _ => Halt assertion_failed
       | Halt why => Halt why
       end)
  /\ (forall s constraints,
     (length vars = 0 \/ 4 <= length vars)%nat ->
     In (SymBoolForAll vars a) (worklist constraints) ->
     (forall b s', is_sat s constraints = Some (Done (b, s')) ->
        b = false /\ model_ s' = None /\
        (error_ s' = "External interrupt." \/
         exists it, tc it <> 1 /\ error_ s' = typecheck_message it))
     /\ ((forall k, interrupt k = false) -> (forall c, tc c = 1) ->
         exists why, is_sat s constraints = Some (Halt why))).
Proof.
  assert (Hhalt : forall ec,
            (length vars = 0 \/ 4 <= length vars)%nat ->
            visit_bool (SymBoolForAll vars a) ec
            = match visit_bool a ec with
              | Done _ => Halt assertion_failed
              | Halt why => Halt why
              end).
  { intros ec Hlen. simpl. unfold cbind.
    destruct (visit_bool a ec) as [[inside ec'] | why]; [| reflexivity].
    destruct vars as [| v1 [| v2 [| v3 [| v4 rest]]]]; simpl in *;
      try lia; reflexivity. }
  split; [| split; [exact Hhalt |]].
  - intros ec inside ec' Hv Hlen. simpl. unfold cbind. rewrite Hv.
    destruct vars as [| v1 [| v2 [| v3 [| v4 rest]]]]; simpl in *;
      try lia; reflexivity.
  - intros s constraints Hlen Hin.
    assert (Hno : term_of (SymBoolForAll vars a) = None).
    { unfold term_of. rewrite (Hhalt _ Hlen).
      now destruct (visit_bool a fresh_ec) as [[? ?] |]. }
    assert (Hret : forall b s', is_sat s constraints = Some (Done (b, s')) ->
              b = false /\ gave_up s').
    { intros b s' H.
      destruct (is_sat_returns _ _ _ _ H)
        as [Hg | (s0 & _ & _ & _ & _ & Hall)]; [exact Hg |].
      destruct (Hall _ Hin) as ((t & Ht & _) & _). congruence. }
    split.
    + intros b s' H. destruct (Hret _ _ H) as (-> & Hm & Hcase).
      split; [reflexivity |]. split; [assumption |].
      destruct Hcase as [(He & _) | (_ & Hit)]; [now left | now right].
    + intros Hq Htc.
      destruct (is_sat_unfold s constraints) as (r & _ & Hr & _).
      unfold is_sat. fold (worklist constraints).
      rewrite (Hr _ (Nat.le_refl _)).
      set (res := match r with
                  | Done (Next s') =>
                      match worklist constraints with
                      | [] => Halt invalid_delete
                      | _ :: _ => run_solver s'
                      end
                  | Done (Return b s') => Done (b, s')
                  | Halt why => Halt why
                  end) in *.
      destruct res as [[b s'] | why] eqn:Hres; [| now exists why].
      assert (H : is_sat s constraints = Some (Done (b, s'))).
      { unfold is_sat. fold (worklist constraints).
        now rewrite (Hr _ (Nat.le_refl _)). }
      destruct (Hret _ _ H) as (_ & _ & [(_ & k & _ & Hk & _) | (_ & it & Hit & _)]).
      * rewrite Hq in Hk. discriminate Hk.
      * now destruct (Hit (Htc it)).
Qed.

(** ** [get_model_array] *)

Lemma record_pair_byte (k v key_bits value_bits : Z)
    (addr_val_map : gmap Z BitVector) :
  0 <= k < 2 ^ 64 -> 0 <= v < 2 ^ 64 ->
  record_pair (bv_val k key_bits) (bv_val v value_bits) addr_val_map
  = if v <=? 255 then Done (<[k := byte_bv v]> addr_val_map)
    else Halt assertion_failed.
Proof.
  intros Hk Hv. unfold record_pair, bv_val, Z3_get_numeral_uint64.
  replace ((0 <=? v) && (v <? 2 ^ 64)) with true by (symmetry; apply andb_true_iff; lia).
  replace ((0 <=? k) && (k <? 2 ^ 64)) with true by (symmetry; apply andb_true_iff; lia).
  simpl. destruct (v <=? 255); reflexivity.
Qed.

Lemma peel_stores_base (base : expr) (kind : Z3_decl_kind)
    (addr_val_map : gmap Z BitVector) :
  Z3_get_decl_kind base = Some kind -> kind <> Z3_OP_STORE ->
  peel_stores base addr_val_map = Done (base, addr_val_map).
Proof.
  intros Hk Hne. destruct base as [| | k ps es | | |]; try reflexivity.
  simpl in Hk. inversion Hk; subst. destruct kind; try reflexivity.
  now destruct Hne.
Qed.

(** Peeling a chain: the pairs are recorded from the outermost store
    inwards, and a value above 255 fails the assertion. *)
Lemma peel_stores_chain (key_bits value_bits : Z) (base : expr)
    (kind : Z3_decl_kind) (ups : list (Z * Z)) :
  Z3_get_decl_kind base = Some kind -> kind <> Z3_OP_STORE ->
  uint64_pairs ups ->
  forall addr_val_map,
    peel_stores (store_chain key_bits value_bits base ups) addr_val_map
    = if all_bytes ups then Done (base, recorded ups addr_val_map)
      else Halt assertion_failed.
Proof.
  intros Hk Hne HF. induction HF as [| [k v] ups (Hkr & Hvr) _ IH];
    intros addr_val_map; simpl.
  - now apply peel_stores_base with kind.
  - simpl in Hkr, Hvr. rewrite record_pair_byte by assumption.
    destruct (v <=? 255); simpl; [apply IH | reflexivity].
Qed.

Lemma recorded_other (ups : list (Z * Z)) (a : Z) :
  ~ In a (map fst ups) ->
  forall m0 : gmap Z BitVector, recorded ups m0 !! a = m0 !! a.
Proof.
  induction ups as [| [k v] ups IH]; intros Hnin m0; simpl; [reflexivity |].
  simpl in Hnin. rewrite IH by tauto.
  apply lookup_insert_ne. tauto.
Qed.

Lemma recorded_some (ups : list (Z * Z)) (a : Z) (b : BitVector) :
  forall m0 : gmap Z BitVector,
    recorded ups m0 !! a = Some b ->
    (exists v, In (a, v) ups /\ b = byte_bv v) \/ m0 !! a = Some b.
Proof.
  induction ups as [| [k v] ups IH]; intros m0 H; simpl in *; [now right |].
  destruct (IH _ H) as [(v' & Hin & Hb) | Hm].
  - left. exists v'. split; [now right | assumption].
  - destruct (decide (k = a)) as [-> | Hne].
    + rewrite lookup_insert_eq in Hm. inversion Hm; subst.
      left. exists v. split; [now left | reflexivity].
    + rewrite lookup_insert_ne in Hm by assumption. now right.
Qed.

Lemma recorded_distinct (ups : list (Z * Z)) :
  NoDup (map fst ups) ->
  forall (m0 : gmap Z BitVector) a v,
    In (a, v) ups -> recorded ups m0 !! a = Some (byte_bv v).
Proof.
  induction ups as [| [k w] ups IH]; intros Hnd m0 a v Hin; simpl in *;
    [destruct Hin |].
  apply NoDup_cons in Hnd. destruct Hnd as (Hk & Hnd).
  destruct Hin as [Heq | Hin].
  - inversion Heq; subst.
    rewrite recorded_other by (intros Hi; apply Hk, list_elem_of_In, Hi).
    apply lookup_insert_eq.
  - now apply IH.
Qed.



(** When an address is stored to twice, the byte of the inner store is the
    one recorded. *)
Lemma recorded_inner (ups : list (Z * Z)) (a v : Z)
    (m0 : gmap Z BitVector) :
  recorded (ups ++ [(a, v)]) m0 !! a = Some (byte_bv v).
Proof.
  unfold recorded. rewrite fold_left_app. simpl. apply lookup_insert_eq.
Qed.

Lemma recorded_innermost (outer inner : list (Z * Z)) (a v : Z)
    (m0 : gmap Z BitVector) :
  ~ In a (map fst inner) ->
  recorded (outer ++ (a, v) :: inner) m0 !! a = Some (byte_bv v).
Proof.
  intros Hnin. unfold recorded. rewrite fold_left_app. simpl.
  fold (recorded inner
          (<[a := byte_bv v]>
             (fold_left (fun m p => <[p.1 := byte_bv p.2]> m) outer m0))).
  rewrite recorded_other by assumption. apply lookup_insert_eq.
Qed.

(** The vector built for a byte holds that byte. *)
Lemma byte_bv_small (v : Z) :
  0 <= v <= 255 -> byte_bv v = {| num_bits := 8; fixed_bytes := [v] |}.
Proof. intros Hv. unfold byte_bv. now rewrite Z.mod_small by lia. Qed.

Lemma all_bytes_In (ups : list (Z * Z)) (a v : Z) :
  uint64_pairs ups -> all_bytes ups = true -> In (a, v) ups ->
  0 <= v <= 255.
Proof.
  intros HF Hb Hin. unfold uint64_pairs in HF. rewrite Forall_forall in HF.
  destruct (HF _ (proj2 (list_elem_of_In _ _) Hin)) as (_ & Hv).
  unfold all_bytes in Hb. rewrite forallb_forall in Hb.
  specialize (Hb _ Hin). simpl in *. lia.
Qed.

(** C5. For a store chain over a constant array, [get_model_array] peels the
    stores from the outermost inwards and records one (address, byte) pair
    for each, until it reaches the base, whose value is the default byte; a
    stored value or a default above 255 fails the assertion instead.  In
    the mapping returned, every address without a store is absent, so the
    default applies there; every entry is a vector of 8 bits that holds the
    byte of a store of the chain to that address, the innermost one when
    the chain stores to it more than once; and when the stores are a set of
    point updates (no address twice), every pair of the chain is in the
    mapping with its byte. *)
Theorem get_model_array_store_chain (s : Z3Solver) (m : model) (var : string)
    (key_bits value_bits : Z) (ups : list (Z * Z)) (d : Z) :
  model_ s = Some m ->
  array_value m var key_bits value_bits
    (store_chain key_bits value_bits
       (Z3_mk_const_array (bv_val d value_bits)) ups) ->
  uint64_pairs ups -> 0 <= d < 2 ^ 64 ->
  get_model_array s var key_bits value_bits
  = (if all_bytes ups && (d <=? 255)
     then Done (recorded ups ∅, d, [])
     else Halt assertion_failed)
  /\ (forall mapping default out,
        get_model_array s var key_bits value_bits
        = Done (mapping, default, out) ->
        default = d /\ 0 <= d <= 255 /\ out = []
        /\ (forall a, ~ In a (map fst ups) -> mapping !! a = None)
        /\ (forall a b, mapping !! a = Some b ->
              exists v, In (a, v) ups /\ 0 <= v <= 255 /\
                b = {| num_bits := 8; fixed_bytes := [v] |})
        /\ (forall outer a v inner,
              ups = outer ++ (a, v) :: inner -> ~ In a (map fst inner) ->
              mapping !! a = Some {| num_bits := 8; fixed_bytes := [v] |})
        /\ (NoDup (map fst ups) ->
            forall a v, In (a, v) ups ->
              mapping !! a = Some {| num_bits := 8; fixed_bytes := [v] |})).
Proof.
  intros Hm Hval Hups Hd.
  assert (Hrun : get_model_array s var key_bits value_bits
                 = (if all_bytes ups && (d <=? 255)
                    then Done (recorded ups ∅, d, [])
                    else Halt assertion_failed)).
  { unfold get_model_array. rewrite Hm. simpl.
    unfold array_value in Hval. rewrite Hval.
    rewrite (peel_stores_chain _ _ _ Z3_OP_CONST_ARRAY) by
      (reflexivity || discriminate || assumption).
    destruct (all_bytes ups); simpl; [| reflexivity].
    unfold Z3_get_numeral_uint64.
    replace ((0 <=? d) && (d <? 2 ^ 64)) with true
      by (symmetry; apply andb_true_iff; lia).
    simpl. destruct (d <=? 255) eqn:Hb; simpl; [| reflexivity].
    rewrite Z.mod_small by lia. reflexivity. }
  split; [exact Hrun |].
  intros mapping default out Hdone. rewrite Hrun in Hdone.
  destruct (all_bytes ups) eqn:Hb; [| discriminate Hdone].
  destruct (Z.leb_spec d 255) as [Hd255 | Hgt]; [| discriminate Hdone].
  simpl in Hdone. inversion Hdone; subst; clear Hdone.
  assert (Hbyte : forall a v, In (a, v) ups ->
            byte_bv v = {| num_bits := 8; fixed_bytes := [v] |}).
  { intros a v Hin. apply byte_bv_small. now apply (all_bytes_In ups a). }
  split; [reflexivity |]. split; [lia |]. split; [reflexivity |].
  split; [| split; [| split]].
  - intros a Ha. now rewrite recorded_other.
  - intros a b H. destruct (recorded_some _ _ _ _ H) as [(v & Hin & ->) | He];
      [| rewrite lookup_empty in He; discriminate He].
    exists v. split; [exact Hin |].
    split; [now apply (all_bytes_In ups a) | now apply (Hbyte a)].
  - intros outer a v inner -> Hnin.
    rewrite recorded_innermost by assumption. f_equal.
    apply (Hbyte a). apply in_or_app. right. now left.
  - intros Hnd a v Hin. rewrite (recorded_distinct _ Hnd _ _ _ Hin).
    f_equal. now apply (Hbyte a).
Qed.


(** ** [get_model_bv] *)

Lemma land_shiftr_byte (o k : Z) :
  0 <= k -> Z.land (Z.shiftr o (k * 8)) 255 = byte_at o k.
Proof.
  intros Hk. unfold byte_at. rewrite Z.shiftr_div_pow2 by lia.
  change 255 with (Z.ones 8). rewrite Z.land_ones by lia.
  now rewrite (Z.mul_comm k 8).
Qed.

Lemma byte_at_range (a k : Z) : 0 <= byte_at a k < 256.
Proof. unfold byte_at. apply Z.mod_pos_bound. lia. Qed.

Lemma byte_at_mod (a w k : Z) :
  0 <= k -> 8 * k + 8 <= w -> byte_at (a mod 2 ^ w) k = byte_at a k.
Proof.
  intros Hk Hw. unfold byte_at. change 256 with (2 ^ 8).
  apply Z.bits_inj'. intros n Hn.
  destruct (Z.lt_ge_cases n 8) as [Hlt | Hge].
  - rewrite !Z.mod_pow2_bits_low by lia.
    rewrite !Z.div_pow2_bits by lia.
    now rewrite Z.mod_pow2_bits_low by lia.
  - now rewrite !Z.mod_pow2_bits_high by lia.
Qed.

Lemma byte_at_sub (a w k : Z) :
  0 <= k -> 8 * k + 8 <= w -> byte_at (a - 2 ^ w) k = byte_at a k.
Proof.
  intros Hk Hw.
  rewrite <- (byte_at_mod (a - 2 ^ w) w), <- (byte_at_mod a w) by assumption.
  f_equal. replace (a - 2 ^ w) with (a + (-1) * 2 ^ w) by ring.
  apply Z_mod_plus_full.
Qed.

Lemma byte_at_div (a l k : Z) :
  0 <= l -> 0 <= k -> byte_at (a / 2 ^ (8 * l)) k = byte_at a (l + k).
Proof.
  intros Hl Hk. unfold byte_at.
  rewrite Z.div_div by (try apply Z.pow_nonzero; try apply Z.pow_pos_nonneg; lia).
  rewrite <- Z.pow_add_r by lia.
  now replace (8 * l + 8 * k) with (8 * (l + k)) by ring.
Qed.

(** The integer that Z3 returns for a window, stored in [oct], has the bytes
    of the window. *)
Lemma oct_bytes (val l w k : Z) :
  0 <= l -> 0 <= k -> 8 * k + 8 <= w -> w <= 64 ->
  byte_at (signed w (bits_of val (8 * l + w - 1) (8 * l)) mod 2 ^ 64) k
  = byte_at val (l + k).
Proof.
  intros Hl Hk Hw H64. rewrite byte_at_mod by lia.
  unfold signed, bits_of.
  replace (8 * l + w - 1 - 8 * l + 1) with w by ring.
  destruct (_ <? _).
  - rewrite byte_at_mod by lia. now apply byte_at_div.
  - rewrite byte_at_sub by lia. rewrite byte_at_mod by lia.
    now apply byte_at_div.
Qed.

Lemma signed_int64 (w x : Z) :
  0 < w <= 64 -> 0 <= x < 2 ^ w ->
  Z3_get_numeral_int64 (Z3_numeral (signed w x) Z3_mk_int_sort)
  = Some (signed w x).
Proof.
  intros Hw Hx. unfold Z3_get_numeral_int64.
  assert (H63 : 2 ^ w <= 2 ^ 64) by (apply Z.pow_le_mono_r; lia).
  assert (Hhalf : 2 ^ w = 2 * 2 ^ (w - 1)).
  { rewrite <- Z.pow_succ_r by lia. f_equal. lia. }
  assert (Hs : - 2 ^ 63 <= signed w x < 2 ^ 63).
  { unfold signed. change (2 ^ 64) with (2 * 2 ^ 63) in H63.
    destruct (Z.ltb_spec x (2 ^ (w - 1))); lia. }
  replace ((- 2 ^ 63 <=? signed w x) && (signed w x <? 2 ^ 63)) with true
    by (symmetry; apply andb_true_iff; lia).
  reflexivity.
Qed.

Lemma write_oct_spec (oct : Z) (n : nat) :
  forall (j k : nat) (r : BitVector),
    (j + n <= length (fixed_bytes r))%nat ->
    exists r',
      write_oct n (Z.of_nat j) (Z.of_nat k) (Some oct) r = Done r'
      /\ num_bits r' = num_bits r
      /\ length (fixed_bytes r') = length (fixed_bytes r)
      /\ forall p : nat,
           fixed_bytes r' !! p
           = if decide (j <= p < j + n)%nat
             then Some (byte_at oct (Z.of_nat (k + (p - j))))
             else fixed_bytes r !! p.
Proof.
  induction n as [| n IH]; intros j k r Hlen; simpl.
  - exists r. repeat split. intros p.
    destruct (decide (j <= p < j + 0)%nat); [lia | reflexivity].
  - unfold set_fixed_byte.
    replace ((0 <=? Z.of_nat j) && (Z.of_nat j <? Z.of_nat (length (fixed_bytes r))))
      with true by (symmetry; apply andb_true_iff; lia).
    simpl. rewrite Nat2Z.id.
    rewrite land_shiftr_byte by lia.
    rewrite Z.mod_small by apply byte_at_range.
    set (r1 := {| num_bits := num_bits r;
                  fixed_bytes := <[j := byte_at oct (Z.of_nat k)]> (fixed_bytes r) |}).
    assert (Hlen1 : (S j + n <= length (fixed_bytes r1))%nat)
      by (simpl; rewrite length_insert; lia).
    destruct (IH (S j) (S k) r1 Hlen1) as (r' & Hrun & Hnb & Hl & Hlook).
    exists r'.
    replace (Z.of_nat j + 1) with (Z.of_nat (S j)) by lia.
    replace (Z.of_nat k + 1) with (Z.of_nat (S k)) by lia.
    split; [exact Hrun |]. split; [exact Hnb |].
    split; [rewrite Hl; simpl; apply length_insert |].
    intros p. rewrite Hlook.
    change (fixed_bytes r1)
      with (<[j := byte_at oct (Z.of_nat k)]> (fixed_bytes r)).
    destruct (decide (S j <= p < S j + n)%nat) as [Hin | Hout].
    + destruct (decide (j <= p < j + S n)%nat); [| lia].
      replace (S k + (p - S j))%nat with (k + (p - j))%nat by lia.
      reflexivity.
    + destruct (decide (j <= p < j + S n)%nat) as [Hin' | Hout'].
      * assert (p = j) by lia. subst p.
        rewrite list_lookup_insert_eq by lia.
        replace (k + (j - j))%nat with k by lia. reflexivity.
      * rewrite list_lookup_insert_ne by lia. reflexivity.
Qed.

(** The windows of a byte-aligned width [8 * B]: window [i] starts at bit
    [64 * i] and holds [8 * n] bits, [n] being 8 or what is left. *)
Lemma max_bits_aligned (B i : nat) :
  (8 * i < B)%nat ->
  exists n : nat,
    n = Nat.min 8 (B - 8 * i) /\
    max_bits_of (8 * Z.of_nat B) (Z.of_nat i)
    = 64 * Z.of_nat i + 8 * Z.of_nat n - 1.
Proof.
  intros Hi. exists (Nat.min 8 (B - 8 * i)). split; [reflexivity |].
  unfold max_bits_of.
  destruct (Z.gtb_spec (Z.of_nat i * 64 + 63) (8 * Z.of_nat B)); lia.
Qed.

(** A window that does not end on a byte boundary ends at the top bit. *)
Lemma max_bits_unaligned (bits i : Z) :
  (max_bits_of bits i + 1) mod 8 <> 0 -> max_bits_of bits i = bits - 1.
Proof.
  unfold max_bits_of. destruct (i * 64 + 63 >? bits); [reflexivity |].
  intros H. exfalso. apply H.
  replace (i * 64 + 63 + 1) with ((i * 8 + 8) * 8) by ring.
  apply Z_mod_mult.
Qed.

Lemma read_window_in_vector (mdl : option model) (v : expr) (bits i : Z)
    (r : BitVector) :
  (max_bits_of bits i + 1) mod 8 <> 0 ->
  read_window mdl v bits i r
  = (m <- read null_dereference mdl ;;
     _ <- assert_ ((max_bits_of bits i + 1) mod 8 =? 0) ;;
     write_oct (Z.to_nat ((max_bits_of bits i + 1) / 8 - i * 8)) (i * 8) 0
       (option_map (fun x => x mod 2 ^ 64)
          (Z3_get_numeral_int64
             (model_eval m
                (Z3_mk_bv2int
                   (Z3_mk_extract (max_bits_of bits i) (i * 64) v) true))))
       r)%outcome.
Proof.
  intros Hna. unfold read_window, to_expr_extract.
  rewrite (max_bits_unaligned _ _ Hna) at 1.
  replace (bits - 1 <? bits) with true by (symmetry; apply Z.ltb_lt; lia).
  reflexivity.
Qed.

Lemma read_window_spec (m : model) (var : string) (val : Z) (B i : nat)
    (r : BitVector) :
  Z3_windows m var (8 * Z.of_nat B) val ->
  (8 * i < B)%nat -> length (fixed_bytes r) = B ->
  exists r',
    read_window (Some m) (Z3_mk_const var (bv_sort (8 * Z.of_nat B)))
      (8 * Z.of_nat B) (Z.of_nat i) r = Done r'
    /\ num_bits r' = num_bits r
    /\ length (fixed_bytes r') = B
    /\ forall p : nat,
         fixed_bytes r' !! p
         = if decide (8 * i <= p < Nat.min (8 * i + 8) B)%nat
           then Some (byte_at val (Z.of_nat p))
           else fixed_bytes r !! p.
Proof.
  intros Hwin Hi Hlen.
  destruct (max_bits_aligned B i Hi) as (n & Hn & Hmax).
  remember (8 * i)%nat as j eqn:Hj.
  unfold read_window. rewrite Hmax. unfold to_expr_extract.
  replace (64 * Z.of_nat i + 8 * Z.of_nat n - 1 <? 8 * Z.of_nat B)
    with true by (symmetry; apply Z.ltb_lt; lia).
  simpl.
  rewrite Hwin by lia.
  rewrite signed_int64;
    [| lia | unfold bits_of; apply Z.mod_pos_bound, Z.pow_pos_nonneg; lia].
  replace (64 * Z.of_nat i + 8 * Z.of_nat n - 1 - Z.of_nat i * 64 + 1)
    with (8 * Z.of_nat n) by ring.
  simpl.
  replace (64 * Z.of_nat i + 8 * Z.of_nat n - 1 + 1)
    with ((8 * Z.of_nat i + Z.of_nat n) * 8) by ring.
  rewrite Z_mod_mult. simpl. rewrite Z_div_mult by lia.
  replace (8 * Z.of_nat i + Z.of_nat n - Z.of_nat i * 8) with (Z.of_nat n)
    by ring.
  rewrite Nat2Z.id.
  replace (Z.of_nat i * 8) with (Z.of_nat j) by lia.
  change 0 with (Z.of_nat 0) at 1.
  destruct (write_oct_spec
              (signed (8 * Z.of_nat n)
                 (bits_of val (64 * Z.of_nat i + 8 * Z.of_nat n - 1)
                    (Z.of_nat i * 64)) mod 2 ^ 64)
              n j 0 r ltac:(lia)) as (r' & Hrun & Hnb & Hl & Hlook).
  exists r'. split; [exact Hrun |]. split; [exact Hnb |].
  split; [congruence |].
  intros p. rewrite Hlook.
  destruct (decide (j <= p < j + n)%nat) as [Hin | Hout];
    destruct (decide (j <= p < Nat.min (j + 8) B)%nat); try lia;
    [| reflexivity].
  f_equal.
  replace (64 * Z.of_nat i + 8 * Z.of_nat n - 1)
    with (8 * Z.of_nat j + 8 * Z.of_nat n - 1) by lia.
  replace (Z.of_nat i * 64) with (8 * Z.of_nat j) by lia.
  rewrite oct_bytes by lia. f_equal. lia.
Qed.

Lemma read_windows_spec (m : model) (var : string) (val : Z) (B : nat) :
  Z3_windows m var (8 * Z.of_nat B) val ->
  forall (n i : nat) (r : BitVector),
    (B <= 8 * (i + n))%nat -> (n = 0 \/ 8 * (i + n - 1) < B)%nat ->
    length (fixed_bytes r) = B ->
    exists r',
      read_windows n (Some m) (Z3_mk_const var (bv_sort (8 * Z.of_nat B)))
        (8 * Z.of_nat B) (Z.of_nat i) r = Done r'
      /\ num_bits r' = num_bits r
      /\ length (fixed_bytes r') = B
      /\ forall p : nat,
           fixed_bytes r' !! p
           = if decide (8 * i <= p < B)%nat
             then Some (byte_at val (Z.of_nat p))
             else fixed_bytes r !! p.
Proof.
  intros Hwin. induction n as [| n IH]; intros i r Hup Hlow Hlen.
  - exists r. split; [reflexivity |]. split; [reflexivity |].
    split; [assumption |]. intros p.
    destruct (decide (8 * i <= p < B)%nat); [lia | reflexivity].
  - destruct (read_window_spec m var val B i r Hwin ltac:(lia) Hlen)
      as (r1 & Hrun1 & Hnb1 & Hl1 & Hlook1).
    cbn [read_windows]. rewrite Hrun1. cbn [obind].
    replace (Z.of_nat i + 1) with (Z.of_nat (S i)) by lia.
    destruct (IH (S i) r1 ltac:(lia) ltac:(lia) Hl1)
      as (r' & Hrun & Hnb & Hl & Hlook).
    exists r'. split; [exact Hrun |]. split; [congruence |].
    split; [exact Hl |].
    intros p. rewrite Hlook, Hlook1.
    destruct (decide (8 * S i <= p < B)%nat);
      destruct (decide (8 * i <= p < B)%nat);
      destruct (decide (8 * i <= p < Nat.min (8 * i + 8) B)%nat);
      try lia; reflexivity.
Qed.

Lemma le_bytes_lookup (val : Z) (n p : nat) :
  le_bytes val n !! p
  = if decide (p < n)%nat then Some (byte_at val (Z.of_nat p)) else None.
Proof.
  unfold le_bytes. rewrite list_lookup_fmap.
  destruct (decide (p < n)%nat) as [Hlt | Hge].
  - now rewrite lookup_seq_lt.
  - now rewrite lookup_seq_ge by lia.
Qed.

(** C8. For a width [bits] that is a multiple of 8, [get_model_bv] asks the
    model for [(bits+63)/64] windows of the variable, each of at most 64
    bits and ending on a byte boundary, and returns the bit vector of
    [bits] bits whose bytes are those of the variable's value, least
    significant first.  The code checks the width by nothing but the
    assertion in the loop: a window that does not end on a byte boundary
    fails it. *)
Theorem get_model_bv_little_endian (s : Z3Solver) (m : model) (var : string)
    (bits val : Z) :
  model_ s = Some m ->
  0 <= bits < 2 ^ 16 -> bits mod 8 = 0 ->
  Z3_windows m var bits val ->
  get_model_bv s var bits
  = Done {| num_bits := bits;
            fixed_bytes := le_bytes val (Z.to_nat (bits / 8)) |}
  /\ (forall i, 0 <= i < (bits + 63) / 64 ->
        i * 64 <= max_bits_of bits i < bits /\
        max_bits_of bits i - i * 64 + 1 <= 64 /\
        (max_bits_of bits i + 1) mod 8 = 0 /\
        (i + 1 < (bits + 63) / 64 -> max_bits_of bits i + 1 = (i + 1) * 64) /\
        (i + 1 = (bits + 63) / 64 -> max_bits_of bits i + 1 = bits))
  /\ (forall v bits' i result,
        (max_bits_of bits' i + 1) mod 8 <> 0 ->
        read_window (Some m) v bits' i result = Halt assertion_failed).
Proof.
  intros Hm Hbits Hal Hwin.
  set (B := Z.to_nat (bits / 8)).
  assert (HB : bits = 8 * Z.of_nat B).
  { unfold B. rewrite Z2Nat.id by (apply Z.div_pos; lia).
    apply Z.div_exact in Hal; lia. }
  split; [| split].
  - unfold get_model_bv. rewrite Hm.
    assert (Hocts : exists octs : nat,
              Z.to_nat ((bits + 63) / 64) = octs /\
              (B <= 8 * octs)%nat /\ (octs = 0 \/ 8 * (octs - 1) < B)%nat).
    { exists (Z.to_nat ((bits + 63) / 64)). split; [reflexivity |].
      assert (H0 : 0 <= (bits + 63) / 64) by (apply Z.div_pos; lia).
      assert (H1 := Z.mul_div_le (bits + 63) 64 ltac:(lia)).
      assert (H2 := Z.mul_succ_div_gt (bits + 63) 64 ltac:(lia)).
      lia. }
    destruct Hocts as (octs & -> & Hup & Hlow).
    rewrite HB in Hwin.
    destruct (read_windows_spec m var val B Hwin octs 0
                (BitVector_new bits) ltac:(lia) ltac:(lia))
      as (r' & Hrun & Hnb & Hl & Hlook).
    { unfold BitVector_new. cbn [fixed_bytes]. rewrite length_replicate.
      rewrite HB.
      replace (8 * Z.of_nat B + 7) with (7 + Z.of_nat B * 8) by ring.
      rewrite Z_div_plus by lia. change (7 / 8) with 0. lia. }
    rewrite <- HB in Hrun. change (Z.of_nat 0) with 0 in Hrun.
    rewrite Hrun. cbn [obind]. rewrite Hnb.
    cbn [BitVector_new num_bits]. rewrite Z.eqb_refl. cbn [assert_ obind].
    destruct r' as [nb bytes]. cbn [num_bits fixed_bytes BitVector_new] in *.
    subst nb. do 2 f_equal.
    apply list_eq. intros p. rewrite Hlook, le_bytes_lookup.
    destruct (decide (8 * 0 <= p < B)%nat); destruct (decide (p < B)%nat);
      try lia; [reflexivity |].
    apply lookup_replicate_None.
    rewrite HB.
    replace (8 * Z.of_nat B + 7) with (7 + Z.of_nat B * 8) by ring.
    rewrite Z_div_plus by lia. change (7 / 8) with 0. lia.
  - intros i Hi. unfold max_bits_of.
    assert (H1 := Z.mul_div_le (bits + 63) 64 ltac:(lia)).
    assert (H2 := Z.mul_succ_div_gt (bits + 63) 64 ltac:(lia)).
    assert (Hmod : forall x, x mod 8 = 0 <-> exists q, x = 8 * q).
    { intros x. split.
      - intros Hx. exists (x / 8). apply Z.div_exact in Hx; lia.
      - intros (q & ->). rewrite Z.mul_comm. apply Z_mod_mult. }
    assert (Hq : exists q, bits = 8 * q) by now apply Hmod.
    destruct Hq as (q & Hq).
    destruct (Z.gtb_spec (i * 64 + 63) bits) as [Hgt | Hle].
    + split; [lia |]. split; [lia |].
      split; [now replace (bits - 1 + 1) with bits by ring |].
      split; lia.
    + split; [lia |]. split; [lia |].
      split; [apply Hmod; exists (8 * i + 8); ring |].
      split; lia.
  - intros v bits' i result Hna.
    rewrite (read_window_in_vector _ _ _ _ _ Hna). simpl.
    destruct (Z.eqb_spec ((max_bits_of bits' i + 1) mod 8) 0) as [He | Hne];
      [contradiction | reflexivity].
Qed.

(** * Further properties *)

(** ** [split_constraints] *)

Lemma split_step_leaves (it : SymBool) :
  forall acc, Permutation (split_step acc it) (acc ++ conj_leaves it).
Proof.
  induction it; intros acc;
    try (rewrite split_step_other by reflexivity; reflexivity).
  simpl. rewrite IHit2, IHit1. simpl. apply Permutation_app_comm.
Qed.

Lemma split_fold_leaves (constraints : list SymBool) :
  forall acc,
    Permutation (fold_left split_step constraints acc)
      (acc ++ flat_map conj_leaves constraints).
Proof.
  induction constraints as [| it rest IH]; intros acc; simpl.
  - now rewrite app_nil_r.
  - rewrite IH, split_step_leaves. now rewrite <- app_assoc.
Qed.

(** X1. [split_constraints] neither drops nor repeats a constraint: its
    result is a rearrangement of the leaves of the conjunctions of the
    input. *)
Theorem split_constraints_leaves (constraints : list SymBool) :
  Permutation (split_constraints constraints)
    (flat_map conj_leaves constraints).
Proof. apply (split_fold_leaves constraints []). Qed.

(** ** The visitor *)

Lemma visit_supported :
  (forall bv ec,
     match visit_bv bv ec with
     | Done _ => supported_bv bv = true
     | Halt _ => supported_bv bv = false
     end)
  /\ (forall c ec,
     match visit_bool c ec with
     | Done _ => supported_bool c = true
     | Halt _ => supported_bool c = false
     end)
  /\ (forall a ec,
     match visit_array a ec with
     | Done _ => supported_array a = true
     | Halt _ => supported_array a = false
     end)
  /\ (forall l n ec,
     match visit_args n l ec with
     | Done _ => supported_args n l = true
     | Halt _ => supported_args n l = false
     end).
Proof.
  apply Sym_mutind; intros; simpl.
  all: try match goal with f : SymFunction |- _ =>
         destruct (args f) as [| ? [| ? [| ? [| ? ?]]]]; simpl end.
  all: try match goal with n : nat |- _ => destruct n; simpl end.
  all: unfold binop, unop, ternop, cbind, cret, chalt, push_back,
         set_ec_error; simpl.
  all: repeat supported_step.
  all: try reflexivity.
  all: try match goal with vars : list SymVar |- _ =>
         destruct vars as [| ? [| ? [| ? [| ? ?]]]]; simpl end.
  all: try reflexivity.
Qed.

(** X2. Lowering a constraint completes exactly when the constraint is
    supported: every function application in it declares one, two or three
    argument sorts and has at least as many arguments, and every
    quantification binds one, two or three variables.  Everything else
    halts the converter, whatever state it is in. *)
Theorem lowering_completes_iff (c : SymBool) (ec : ExprConverter) :
  supported_bool c = true
  <-> exists t ec', visit_bool c ec = Done (t, ec').
Proof.
  destruct visit_supported as (_ & Hb & _). specialize (Hb c ec).
  destruct (visit_bool c ec) as [[t ec'] | why]; split; intros H.
  - now exists t, ec'.
  - assumption.
  - rewrite Hb in H. discriminate H.
  - destruct H as (t & ec' & H). discriminate H.
Qed.

(** ** [is_sat] *)

(** The signed divisions inside a divisor of a term are signed divisions of
    the term. *)
Lemma divisors_trans :
  (forall bv b d, In b (divisors_bv bv) -> In d (divisors_bv b) ->
     In d (divisors_bv bv))
  /\ (forall c b d, In b (divisors_bool c) -> In d (divisors_bv b) ->
     In d (divisors_bool c))
  /\ (forall a b d, In b (divisors_array a) -> In d (divisors_bv b) ->
     In d (divisors_array a))
  /\ (forall l n b d, In b (divisors_args n l) -> In d (divisors_bv b) ->
     In d (divisors_args n l)).
Proof.
  apply Sym_mutind; simpl; intros;
    try match goal with n : nat |- _ => destruct n; simpl in * end;
    repeat rewrite in_app_iff in *;
    intuition (subst; eauto).
Qed.

Lemma Forall2_In_right {A B : Type} (P : A -> B -> Prop) (l : list A)
    (l' : list B) (y : B) :
  Forall2 P l l' -> In y l' -> exists x, In x l /\ P x y.
Proof.
  induction 1 as [| a b l l' Hab _ IH]; intros Hin; [destruct Hin |].
  destruct Hin as [-> | Hin].
  - exists a. split; [now left | assumption].
  - destruct (IH Hin) as (x & Hx & HP). exists x. split; [now right | assumption].
Qed.

Lemma lowering_loop_only (fuel : nat) :
  forall current s s', lowering s ->
    lowering_loop fuel current s = Some (Done (Next s')) ->
    exists ts, solver_ s' = solver_ s ++ ts /\
      forall t, In t ts ->
        exists c, term_of c = Some t /\ tc c = 1 /\
          (In c current \/
           exists c0 b, In c0 current /\ In b (divisors_bool c0) /\
                        c = divisor_guard (width_ b) b).
Proof.
  induction fuel as [| fuel IH]; intros current s s' Hs H;
    destruct current as [| c0 rest].
  - simpl in H. inversion H; subst. exists []. split; [now rewrite app_nil_r |].
    intros t [].
  - discriminate H.
  - simpl in H. inversion H; subst. exists []. split; [now rewrite app_nil_r |].
    intros t [].
  - remember (c0 :: rest) as current eqn:Hcur.
    assert (Hne : current <> []) by (subst; discriminate).
    clear Hcur c0 rest.
    rewrite lowering_loop_S in H by assumption.
    destruct (check_abort s) as [[|] s1] eqn:Hab; [discriminate H |].
    destruct (check_abort_lowering _ _ Hs Hab) as (Hs1 & Hsol1).
    assert (Hround := lower_each_spec current fresh_ec s1 eq_refl Hs1).
    destruct (lower_each current fresh_ec s1)
      as [[[ec' s2] | b s2] | why]; try discriminate H.
    destruct Hround as (Hs2 & -> & ts1 & Hts1 & HF).
    simpl in H.
    destruct (IH _ _ _ Hs2 H) as (ts2 & Hts2 & Honly).
    exists (ts1 ++ ts2). split.
    { rewrite Hts2, Hts1, Hsol1. now rewrite <- app_assoc. }
    intros t Hin. apply in_app_or in Hin. destruct Hin as [Hin | Hin].
    + destruct (Forall2_In_right _ _ _ _ HF Hin) as (c & Hc & Ht & Htc).
      exists c. repeat split; try assumption. now left.
    + destruct (Honly t Hin) as (c & Ht & Htc & Hc).
      exists c. split; [assumption |]. split; [assumption |]. right.
      assert (Hnext : forall g,
                In g (flat_map (fun c => guards_of (divisors_bool c)) current) ->
                exists c0 b, In c0 current /\ In b (divisors_bool c0) /\
                             g = divisor_guard (width_ b) b).
      { intros g Hg. apply in_flat_map in Hg. destruct Hg as (c1 & Hc1 & Hg).
        unfold guards_of in Hg. apply in_map_iff in Hg.
        destruct Hg as (b & <- & Hb). now exists c1, b. }
      destruct Hc as [Hc | (g & b & Hg & Hb & ->)].
      * now apply Hnext.
      * destruct (Hnext g Hg) as (c1 & b1 & Hc1 & Hb1 & ->).
        rewrite divisors_guard in Hb.
        exists c1, b. split; [assumption |]. split; [| reflexivity].
        destruct divisors_trans as (_ & Htrans & _).
        now apply Htrans with b1.
Qed.

(** X3. Nothing but the lowered constraints of the worklist and the lowered
    guards of their signed divisions is ever asserted: when [is_sat] gets to
    [solver_.check()], every asserted term is the lowering of a constraint
    that typechecks and that is either in the worklist or the guard of the
    divisor of a signed division of a worklist constraint. *)
Theorem is_sat_asserts_only (s : Z3Solver) (constraints : list SymBool)
    (s1 : Z3Solver) :
  reaches_solver s constraints s1 ->
  forall t, In t (solver_ s1) ->
    exists c, term_of c = Some t /\ tc c = 1 /\
      (In c (worklist constraints) \/
       exists c0 b, In c0 (worklist constraints) /\
         In b (divisors_bool c0) /\ c = divisor_guard (width_ b) b).
Proof.
  intros (s0 & Hloop & _ & Hab) t Hin.
  destruct (check_abort_false _ _ Hab) as (_ & _ & _ & Hsol & _).
  destruct (lowering_loop_only _ _ _ _ (reset_lowering s) Hloop)
    as (ts & Hts & Honly).
  rewrite Hsol, Hts in Hin. now apply Honly.
Qed.

Lemma lower_each_typecheck (pre : list SymBool) (ts : list expr)
    (it : SymBool) (post : list SymBool) :
  (forall k, interrupt k = false) ->
  Forall2 (fun c t => term_of c = Some t /\ tc c = 1) pre ts ->
  tc it <> 1 ->
  forall ec s, ec_error_ ec = "" ->
    exists s',
      lower_each (pre ++ it :: post) ec s = Done (Return false s')
      /\ error_ s' = typecheck_message it
      /\ model_ s' = model_ s /\ solver_ s' = solver_ s ++ ts.
Proof.
  intros Hq HF Hit. induction HF as [| c t rest ts' (Ht & Htc) _ IH];
    intros ec s Hec; simpl.
  - unfold check_abort. simpl. rewrite Hq.
    apply Z.eqb_neq in Hit. rewrite Hit. simpl.
    eexists. split; [reflexivity |]. simpl.
    now rewrite app_nil_r.
  - unfold check_abort. simpl. rewrite Hq. rewrite Htc. simpl.
    rewrite (term_of_visit _ _ Ht ec).
    unfold has_error. simpl. rewrite Hec. simpl.
    destruct (IH (emit ec (guards_of (divisors_bool c)))
                 (solver_add t (load_stop_now_ s)) Hec)
      as (s' & Hrun & He & Hm & Hsol).
    exists s'. split; [exact Hrun |]. split; [exact He |].
    split; [exact Hm |]. rewrite Hsol. simpl. now rewrite <- app_assoc.
Qed.

(** X4. A constraint that does not typecheck ends the whole query: when no
    interrupt arrives and the constraints before it in the worklist
    typecheck and lower, [is_sat] returns [false] with the typecheck message
    of that constraint, holds no model, has asserted only the constraints
    before it, and has neither checked nor lowered the ones after it. *)
Theorem is_sat_typecheck_failure (s : Z3Solver) (constraints : list SymBool)
    (pre : list SymBool) (ts : list expr) (it : SymBool)
    (post : list SymBool) :
  (forall k, interrupt k = false) ->
  worklist constraints = pre ++ it :: post ->
  Forall2 (fun c t => term_of c = Some t /\ tc c = 1) pre ts ->
  tc it <> 1 ->
  exists s',
    is_sat s constraints = Some (Done (false, s'))
    /\ error_ s' = typecheck_message it
    /\ model_ s' = None /\ solver_ s' = ts.
Proof.
  intros Hq Hwl HF Hit.
  assert (Hne : worklist constraints <> [])
    by (rewrite Hwl; destruct pre; discriminate).
  unfold is_sat, is_sat_fuel. fold (worklist constraints).
  destruct (rounds (worklist constraints)) as [| n] eqn:Hn;
    [apply rounds_pos in Hne; lia |].
  rewrite lowering_loop_S by assumption.
  unfold check_abort. simpl. rewrite Hq. rewrite Hwl.
  destruct (lower_each_typecheck pre ts it post Hq HF Hit fresh_ec
              (load_stop_now_ (reset_state s)) eq_refl)
    as (s' & Hrun & He & Hm & Hsol).
  rewrite Hrun. exists s'. split; [reflexivity |]. split; [exact He |].
  split; assumption.
Qed.

(** X5. The error slot after [is_sat], with the assertions compiled in: it
    is empty after [true]; after [false] it is empty (the solver said
    [unsat]) or holds the interrupt message, the typecheck message of a
    constraint, "z3 gave up." or the message for a caught exception.  The
    branch of [is_sat] that copies the converter's message is not reached
    then: every place of the converter that sets its message fails an
    assertion next, so a lowering that returns has left the message as it
    was. *)
Theorem is_sat_error_messages (s : Z3Solver) (constraints : list SymBool)
    (b : bool) (s' : Z3Solver) :
  is_sat s constraints = Some (Done (b, s')) ->
  ((b = true /\ error_ s' = "")
   \/ (b = false /\
       (error_ s' = ""
        \/ error_ s' = "External interrupt."
        \/ (exists it, tc it <> 1 /\ error_ s' = typecheck_message it)
        \/ error_ s' = "z3 gave up."
        \/ error_ s' = "Z3 encountered error: std::exception" +:+ endl)))
  /\ (forall c ec t ec',
        visit_bool c ec = Done (t, ec') -> ec_error_ ec' = ec_error_ ec).
Proof.
  intros H. split;
    [| intros c ec t ec' Hv;
       now destruct (visit_bool_emit _ _ _ _ Hv) as (_ & ->)].
  destruct (is_sat_returns _ _ _ _ H)
    as [(-> & _ & [(He & _) | (_ & Hit)]) | (s0 & Hs0 & _ & _ & Hrun & _)].
  - right. split; [reflexivity |]. right. now left.
  - right. split; [reflexivity |]. right. right. now left.
  - assert (Hspec := run_solver_spec s0 Hs0). rewrite Hrun in Hspec.
    destruct b.
    + left. split; [reflexivity |].
      destruct Hspec as (s1 & m & _ & (He & _) & _ & ->). exact He.
    + right. split; [reflexivity |].
      destruct Hspec as (_ & _ & [(He & _) | (_ & s1 & Hab & Hcase)]).
      * right. now left.
      * destruct (check_abort_lowering _ _ Hs0 Hab) as ((He1 & _) & _).
        destruct (Z3_solver_check (solver_ s1)) as [| m | | | what];
          try contradiction; subst s'.
        -- now left.
        -- right. right. right. now left.
        -- right. right. right. right. reflexivity.
Qed.

(** ** The decoders after [is_sat] *)

Lemma is_sat_false_no_model (s : Z3Solver) (constraints : list SymBool)
    (s' : Z3Solver) :
  is_sat s constraints = Some (Done (false, s')) -> model_ s' = None.
Proof.
  intros H.
  destruct (is_sat_returns _ _ _ _ H)
    as [(_ & Hm & _) | (s0 & Hs0 & _ & _ & Hrun & _)]; [exact Hm |].
  assert (Hspec := run_solver_spec s0 Hs0). rewrite Hrun in Hspec.
  now destruct Hspec as (Hm & _).
Qed.

(** X6. After [is_sat] has returned [false], whatever the reason, the
    decoders have no model to read: [get_model_bool], [get_model_array] and
    [get_model_bv] for any width above 0 dereference the null handle.  The
    one width for which [get_model_bv] does not get that far is 63, whose
    only window asks Z3 for bit 63 of 63 and is refused before the model is
    used. *)
Theorem decode_after_false (s : Z3Solver) (constraints : list SymBool)
    (s' : Z3Solver) (var : string) (key_bits value_bits bits : Z) :
  is_sat s constraints = Some (Done (false, s')) ->
  get_model_bool s' var = Halt null_dereference
  /\ get_model_array s' var key_bits value_bits = Halt null_dereference
  /\ (0 < bits ->
      get_model_bv s' var bits
      = Halt (if bits =? 63 then z3_error else null_dereference)).
Proof.
  intros H. apply is_sat_false_no_model in H.
  split; [| split].
  - unfold get_model_bool. now rewrite H.
  - unfold get_model_array. now rewrite H.
  - intros Hbits. unfold get_model_bv. rewrite H.
    assert (Hocts : 1 <= (bits + 63) / 64)
      by (apply Z.div_le_lower_bound; lia).
    destruct (Z.to_nat ((bits + 63) / 64)) as [| n] eqn:Hn; [lia |].
    cbn [read_windows]. unfold read_window, to_expr_extract, max_bits_of.
    change (0 * 64 + 63) with 63.
    destruct (Z.eqb_spec bits 63) as [-> | Hne]; [reflexivity |].
    destruct (Z.gtb_spec 63 bits) as [Hgt | Hle].
    + replace (bits - 1 <? bits) with true
        by (symmetry; apply Z.ltb_lt; lia).
      reflexivity.
    + replace (63 <? bits) with true by (symmetry; apply Z.ltb_lt; lia).
      reflexivity.
Qed.

(** X7. A boolean variable asserted as a constraint decodes to [true]: when
    Z3 is sound and [is_sat] returns [true] for a worklist that holds the
    variable [p], [get_model_bool] on the resulting solver object returns
    [true] for [p] and leaves the object as it is. *)
Theorem asserted_variable_decodes_true (s : Z3Solver)
    (constraints : list SymBool) (s' : Z3Solver) (p : string) :
  Z3_sound model_eval ->
  is_sat s constraints = Some (Done (true, s')) ->
  In (SymBoolVar p) (worklist constraints) ->
  get_model_bool s' p = Done (true, s').
Proof.
  intros Hsound H Hin.
  destruct (is_sat_returns _ _ _ _ H)
    as [(Hf & _) | (s0 & Hs0 & _ & _ & Hrun & Hall)]; [discriminate Hf |].
  destruct (Hall _ Hin) as ((t & Ht & Hint & _) & _).
  unfold term_of in Ht. simpl in Ht. inversion Ht; subst t; clear Ht.
  assert (Hspec := run_solver_spec s0 Hs0). rewrite Hrun in Hspec.
  destruct Hspec as (s1 & m & Hab & _ & Hc & ->).
  destruct (check_abort_false _ _ Hab) as (_ & _ & _ & Hsol & _).
  rewrite <- Hsol in Hint.
  assert (Hv := Hsound _ _ Hc _ Hint).
  unfold get_model_bool. simpl. now rewrite Hv.
Qed.

(** ** [get_model_array] *)

Lemma get_model_array_const (s : Z3Solver) (m : model) (var : string)
    (key_bits value_bits : Z) (ups : list (Z * Z)) (d : Z) :
  model_ s = Some m ->
  array_value m var key_bits value_bits
    (store_chain key_bits value_bits
       (Z3_mk_const_array (bv_val d value_bits)) ups) ->
  uint64_pairs ups -> all_bytes ups = true -> 0 <= d <= 255 ->
  get_model_array s var key_bits value_bits = Done (recorded ups ∅, d, []).
Proof.
  intros Hm Hval Hups Hb Hd.
  unfold get_model_array. rewrite Hm. simpl.
  unfold array_value in Hval. rewrite Hval.
  rewrite (peel_stores_chain _ _ _ Z3_OP_CONST_ARRAY) by
    (reflexivity || discriminate || assumption).
  rewrite Hb. simpl. unfold Z3_get_numeral_uint64.
  replace ((0 <=? d) && (d <? 2 ^ 64)) with true
    by (symmetry; apply andb_true_iff; lia).
  simpl. replace (d <=? 255) with true by (symmetry; apply Z.leb_le; lia).
  simpl. rewrite Z.mod_small by lia. reflexivity.
Qed.

(** X9. When a store chain writes an address more than once, the byte that
    [get_model_array] returns for it is the one of the store nearest to the
    base: the stores are recorded from the outermost inwards and each one
    overwrites the entry of its address. *)
Theorem get_model_array_inner_store (s : Z3Solver) (m : model)
    (var : string) (key_bits value_bits : Z) (outer inner : list (Z * Z))
    (a v d : Z) :
  model_ s = Some m ->
  array_value m var key_bits value_bits
    (store_chain key_bits value_bits
       (Z3_mk_const_array (bv_val d value_bits))
       (outer ++ (a, v) :: inner)) ->
  uint64_pairs (outer ++ (a, v) :: inner) ->
  all_bytes (outer ++ (a, v) :: inner) = true -> 0 <= d <= 255 ->
  ~ In a (map fst inner) ->
  exists mapping,
    get_model_array s var key_bits value_bits = Done (mapping, d, [])
    /\ mapping !! a = Some (byte_bv v).
Proof.
  intros Hm Hval Hups Hb Hd Hnin.
  exists (recorded (outer ++ (a, v) :: inner) ∅).
  split; [now apply get_model_array_const with m |].
  unfold recorded. rewrite fold_left_app. simpl.
  fold (recorded inner
          (<[a := byte_bv v]>
             (fold_left (fun m0 p => <[p.1 := byte_bv p.2]> m0) outer ∅))).
  rewrite recorded_other by assumption. apply lookup_insert_eq.
Qed.

Lemma record_entries_of (key_bits value_bits : Z) (ents : list (Z * Z)) :
  uint64_pairs ents ->
  forall m0 : gmap Z BitVector,
    record_entries (entries_of key_bits value_bits ents) m0
    = if all_bytes ents then Done (recorded ents m0)
      else Halt assertion_failed.
Proof.
  intros HF. induction HF as [| [k v] ents (Hk & Hv) _ IH]; intros m0; simpl.
  - reflexivity.
  - simpl in Hk, Hv. rewrite record_pair_byte by assumption.
    destruct (v <=? 255); simpl; [apply IH | reflexivity].
Qed.

(** X10. An array that the model gives as a function: the entries of the
    function's interpretation are recorded after the stores peeled on the
    way, so an entry replaces a peeled store at its address, and the default
    is the conversion of the interpretation's else value. *)
Theorem get_model_array_as_array (s : Z3Solver) (m : model) (var : string)
    (key_bits value_bits : Z) (ups ents : list (Z * Z)) (f : func_decl) :
  model_ s = Some m ->
  array_value m var key_bits value_bits
    (store_chain key_bits value_bits (Z3_as_array f) ups) ->
  entries (get_func_interp m f) = entries_of key_bits value_bits ents ->
  uint64_pairs ups -> all_bytes ups = true ->
  uint64_pairs ents -> all_bytes ents = true ->
  NoDup (map fst ents) ->
  get_model_array s var key_bits value_bits
  = Done (recorded ents (recorded ups ∅),
          expr_to_uint8 (else_value (get_func_interp m f)), [])
  /\ (forall a v, In (a, v) ents ->
        recorded ents (recorded ups ∅) !! a = Some (byte_bv v))
  /\ (forall a, ~ In a (map fst ents) ->
        recorded ents (recorded ups ∅) !! a
        = recorded ups (∅ : gmap Z BitVector) !! a).
Proof.
  intros Hm Hval Hent Hups Hb Hents Hbe Hnd. split; [| split].
  - unfold get_model_array. rewrite Hm. simpl.
    unfold array_value in Hval. rewrite Hval.
    rewrite (peel_stores_chain _ _ _ Z3_OP_AS_ARRAY) by
      (reflexivity || discriminate || assumption).
    rewrite Hb. simpl. rewrite Hent.
    rewrite record_entries_of by assumption. rewrite Hbe. reflexivity.
  - intros a v Hin. now apply recorded_distinct.
  - intros a Hnin. now apply recorded_other.
Qed.

(** ** [get_model_bv] *)

Lemma read_window_unaligned (mdl : option model) (v : expr) (bits i : Z)
    (r : BitVector) :
  (max_bits_of bits i + 1) mod 8 <> 0 ->
  exists why, read_window mdl v bits i r = Halt why.
Proof.
  intros Hna. rewrite (read_window_in_vector _ _ _ _ _ Hna).
  destruct mdl as [m |]; simpl.
  - destruct (Z.eqb_spec ((max_bits_of bits i + 1) mod 8) 0) as [He | Hne];
      [contradiction | now exists assertion_failed].
  - now exists null_dereference.
Qed.

Lemma read_windows_last_unaligned (mdl : option model) (v : expr)
    (bits : Z) (n : nat) :
  forall (i : Z) (r : BitVector),
    (max_bits_of bits (i + Z.of_nat n) + 1) mod 8 <> 0 ->
    exists why, read_windows (S n) mdl v bits i r = Halt why.
Proof.
  induction n as [| n IH]; intros i r Hna.
  - replace (i + Z.of_nat 0) with i in Hna by lia.
    destruct (read_window_unaligned mdl v bits i r Hna) as (why & Hw).
    exists why. cbn [read_windows]. now rewrite Hw.
  - cbn [read_windows].
    destruct (read_window mdl v bits i r) as [r1 | why] eqn:Hw;
      [| now exists why].
    cbn [obind]. apply IH.
    now replace (i + 1 + Z.of_nat n) with (i + Z.of_nat (S n)) by lia.
Qed.

(** X11. A width that is not a multiple of 8 gives no value: unless the
    width is 63 more than a multiple of 64, [get_model_bv] halts, whatever
    the model holds (the last window fails the assertion, if nothing halted
    before). *)
Theorem get_model_bv_unaligned (s : Z3Solver) (var : string) (bits : Z) :
  0 < bits -> bits mod 8 <> 0 -> bits mod 64 <> 63 ->
  exists why, get_model_bv s var bits = Halt why.
Proof.
  intros Hpos Hna H63. unfold get_model_bv.
  set (octs := (bits + 63) / 64).
  assert (Hocts : 64 * octs <= bits + 63 < 64 * octs + 64).
  { unfold octs. split.
    - apply Z.mul_div_le. lia.
    - assert (H := Z.mul_succ_div_gt (bits + 63) 64 ltac:(lia)). lia. }
  assert (Hmod : bits mod 64 = bits - 64 * (octs - 1) \/
                 bits = 64 * octs).
  { destruct (Z.eq_dec bits (64 * octs)) as [He | Hne]; [now right | left].
    symmetry. apply (Z.mod_unique_pos bits 64 (octs - 1)); lia. }
  assert (Hlast : max_bits_of bits (octs - 1) = bits - 1).
  { unfold max_bits_of.
    destruct (Z.gtb_spec ((octs - 1) * 64 + 63) bits) as [Hgt | Hle];
      [reflexivity |].
    destruct Hmod as [Hm | He]; [| lia].
    assert (bits = 64 * octs - 1 \/ bits = 64 * octs) by lia. lia. }
  assert (Hn : exists n, Z.to_nat octs = S n /\ Z.of_nat n = octs - 1).
  { exists (Z.to_nat (octs - 1)). split; lia. }
  destruct Hn as (n & -> & Hn').
  destruct (read_windows_last_unaligned (model_ s)
              (Z3_mk_const var (bv_sort bits)) bits n 0
              (BitVector_new bits)) as (why & Hw).
  { replace (0 + Z.of_nat n) with (octs - 1) by lia. rewrite Hlast.
    now replace (bits - 1 + 1) with bits by ring. }
  exists why. now rewrite Hw.
Qed.

Lemma read_windows_last_halts (mdl : option model) (v : expr) (bits : Z)
    (n : nat) :
  forall (i : Z) (r : BitVector),
    (forall r', exists why,
        read_window mdl v bits (i + Z.of_nat n) r' = Halt why) ->
    exists why, read_windows (S n) mdl v bits i r = Halt why.
Proof.
  induction n as [| n IH]; intros i r Hlast.
  - replace (i + Z.of_nat 0) with i in Hlast by lia.
    destruct (Hlast r) as (why & Hw).
    exists why. cbn [read_windows]. now rewrite Hw.
  - cbn [read_windows].
    destruct (read_window mdl v bits i r) as [r1 | why] eqn:Hw;
      [| now exists why].
    cbn [obind]. apply IH. intros r'.
    replace (i + 1 + Z.of_nat n) with (i + Z.of_nat (S n)) by lia.
    apply Hlast.
Qed.

(** X12. A width that is 63 more than a multiple of 64 gives no value
    either.  The test [i*64+63 > bits] lets [i*64+63 = bits] through, so the
    extract of the last window asks Z3 for bit [bits], one above the top bit
    of the vector; Z3 refuses it and [to_expr] throws, before the model is
    used for that window and before any of its bytes is written. *)
Theorem get_model_bv_extract_refused (s : Z3Solver) (var : string)
    (bits : Z) :
  0 < bits -> bits mod 64 = 63 ->
  (exists why, get_model_bv s var bits = Halt why)
  /\ (bits + 63) / 64 = bits / 64 + 1
  /\ max_bits_of bits (bits / 64) = bits
  /\ (forall mdl v r, read_window mdl v bits (bits / 64) r = Halt z3_error).
Proof.
  intros Hpos H63.
  assert (Hq : bits = 64 * (bits / 64) + 63).
  { assert (H := Z.div_mod bits 64 ltac:(lia)). lia. }
  set (q := bits / 64) in *.
  assert (Hq0 : 0 <= q) by (apply Z.div_pos; lia).
  assert (Hocts : (bits + 63) / 64 = q + 1).
  { symmetry. apply (Z.div_unique_pos (bits + 63) 64 (q + 1) 62); lia. }
  assert (Hmax : max_bits_of bits q = bits).
  { unfold max_bits_of.
    destruct (Z.gtb_spec (q * 64 + 63) bits) as [Hgt | Hle]; lia. }
  assert (Hwin : forall mdl v r, read_window mdl v bits q r = Halt z3_error).
  { intros mdl v r. unfold read_window, to_expr_extract. rewrite Hmax.
    now rewrite Z.ltb_irrefl. }
  split; [| split; [exact Hocts | split; [exact Hmax | exact Hwin]]].
  unfold get_model_bv. rewrite Hocts.
  replace (Z.to_nat (q + 1)) with (S (Z.to_nat q)) by lia.
  destruct (read_windows_last_halts (model_ s)
              (Z3_mk_const var (bv_sort bits)) bits (Z.to_nat q) 0
              (BitVector_new bits)) as (why & Hw).
  { intros r'. exists z3_error.
    replace (0 + Z.of_nat (Z.to_nat q)) with q by lia. apply Hwin. }
  exists why. now rewrite Hw.
Qed.

Lemma le_bytes_S (val : Z) (n : nat) :
  le_bytes val (S n) = val mod 256 :: le_bytes (val / 256) n.
Proof.
  unfold le_bytes. cbn [seq map]. f_equal.
  - unfold byte_at. simpl. now rewrite Z.div_1_r.
  - rewrite <- seq_shift, map_map. apply map_ext. intros j.
    unfold byte_at. rewrite Z.div_div by lia.
    do 2 f_equal. change 256 with (2 ^ 8). rewrite <- Z.pow_add_r by lia.
    f_equal. lia.
Qed.

Lemma le_value_le_bytes (n : nat) :
  forall val, le_value (le_bytes val n) = val mod 2 ^ (8 * Z.of_nat n).
Proof.
  induction n as [| n IH]; intros val.
  - simpl. now rewrite Z.mod_1_r.
  - rewrite le_bytes_S. cbn [le_value fold_right]. fold (le_value (le_bytes (val / 256) n)).
    rewrite IH.
    replace (8 * Z.of_nat (S n)) with (8 + 8 * Z.of_nat n) by lia.
    rewrite Z.pow_add_r by lia. change (2 ^ 8) with 256.
    rewrite Z.rem_mul_r by (try apply Z.pow_nonzero; try apply Z.pow_pos_nonneg; lia).
    reflexivity.
Qed.

Lemma get_model_bv_done (s : Z3Solver) (m : model) (var : string)
    (bits val : Z) :
  model_ s = Some m -> 0 <= bits -> bits mod 8 = 0 ->
  Z3_windows m var bits val ->
  get_model_bv s var bits
  = Done {| num_bits := bits;
            fixed_bytes := le_bytes val (Z.to_nat (bits / 8)) |}.
Proof.
  intros Hm Hbits Hal Hwin.
  set (B := Z.to_nat (bits / 8)).
  assert (HB : bits = 8 * Z.of_nat B).
  { unfold B. rewrite Z2Nat.id by (apply Z.div_pos; lia).
    apply Z.div_exact in Hal; lia. }
  unfold get_model_bv. rewrite Hm.
  assert (Hocts : exists octs : nat,
            Z.to_nat ((bits + 63) / 64) = octs /\
            (B <= 8 * octs)%nat /\ (octs = 0 \/ 8 * (octs - 1) < B)%nat).
  { exists (Z.to_nat ((bits + 63) / 64)). split; [reflexivity |].
    assert (H0 : 0 <= (bits + 63) / 64) by (apply Z.div_pos; lia).
    assert (H1 := Z.mul_div_le (bits + 63) 64 ltac:(lia)).
    assert (H2 := Z.mul_succ_div_gt (bits + 63) 64 ltac:(lia)).
    lia. }
  destruct Hocts as (octs & -> & Hup & Hlow).
  rewrite HB in Hwin.
  destruct (read_windows_spec m var val B Hwin octs 0
              (BitVector_new bits) ltac:(lia) ltac:(lia))
    as (r' & Hrun & Hnb & Hl & Hlook).
  { unfold BitVector_new. cbn [fixed_bytes]. rewrite length_replicate.
    rewrite HB.
    replace (8 * Z.of_nat B + 7) with (7 + Z.of_nat B * 8) by ring.
    rewrite Z_div_plus by lia. change (7 / 8) with 0. lia. }
  rewrite <- HB in Hrun. change (Z.of_nat 0) with 0 in Hrun.
  rewrite Hrun. cbn [obind]. rewrite Hnb.
  cbn [BitVector_new num_bits]. rewrite Z.eqb_refl. cbn [assert_ obind].
  destruct r' as [nb bytes]. cbn [num_bits fixed_bytes BitVector_new] in *.
  subst nb. do 2 f_equal.
  apply list_eq. intros p. rewrite Hlook, le_bytes_lookup.
  destruct (decide (8 * 0 <= p < B)%nat); destruct (decide (p < B)%nat);
    try lia; [reflexivity |].
  apply lookup_replicate_None.
  rewrite HB.
  replace (8 * Z.of_nat B + 7) with (7 + Z.of_nat B * 8) by ring.
  rewrite Z_div_plus by lia. change (7 / 8) with 0. lia.
Qed.

(** X13. Decoding gives back the value: for a byte-aligned width, the bytes
    that [get_model_bv] returns, read least significant first, spell the
    value that the model gives the variable, reduced to [bits] bits. *)
Theorem get_model_bv_value (s : Z3Solver) (m : model) (var : string)
    (bits val : Z) :
  model_ s = Some m -> 0 <= bits -> bits mod 8 = 0 ->
  Z3_windows m var bits val ->
  exists r,
    get_model_bv s var bits = Done r
    /\ num_bits r = bits
    /\ Z.of_nat (length (fixed_bytes r)) = bits / 8
    /\ le_value (fixed_bytes r) = val mod 2 ^ bits.
Proof.
  intros Hm Hbits Hal Hwin.
  eexists. split; [exact (get_model_bv_done s m var bits val Hm Hbits Hal Hwin) |].
  cbn [num_bits fixed_bytes]. split; [reflexivity |].
  assert (Hdiv : 0 <= bits / 8) by (apply Z.div_pos; lia).
  split.
  - unfold le_bytes. rewrite length_map, length_seq. lia.
  - rewrite le_value_le_bytes. f_equal. f_equal.
    rewrite Z2Nat.id by assumption.
    apply Z.div_exact in Hal; lia.
Qed.

(** ** The halts of [is_sat] *)




End Z3Solver.

Arguments error_ {model} _.
Arguments model_ {model} _.
Arguments stop_now_ {model} _.
Arguments solver_ {model} _.
Arguments loads_ {model} _.

(** * Examples with the reference collaborators *)

Lemma ref_sound (m : ref_model) : Z3_sound ref_model (ref_check m) ref_eval.
Proof.
  intros assertions m' H t Hin. unfold ref_check in H.
  destruct (forallb _ assertions) eqn:Hall; [| discriminate H].
  inversion H; subst m'.
  rewrite forallb_forall in Hall. apply Z.eqb_eq. now apply Hall.
Qed.

Lemma ref_not_eq : Z3_not_eq ref_model ref_eval.
Proof.
  split.
  - intros m t H Ht. simpl in H. rewrite Ht in H. simpl in H. discriminate H.
  - intros m t w Ht. simpl. rewrite Ht. reflexivity.
Qed.

Lemma ref_windows (m : ref_model) (var : string) (bits : Z) :
  Z3_windows ref_model ref_eval m var bits (ref_value m var mod 2 ^ bits).
Proof. intros hi lo _ _. reflexivity. Qed.

(** x / y = 2 with x = 6 and y = 3: the guard y != 0 is asserted and the
    model gives y a value that is not zero. *)
Lemma signed_division_guarded_witness :
  exists s',
    is_sat ref_width ref_axioms ref_tc ref_tc_error ref_show ref_model
      (ref_check m63) never
      {| error_ := ""; model_ := None; stop_now_ := false; solver_ := [];
         loads_ := 0 |}
      [SymBoolEq (SymBitVectorSignDiv x8 y8) (c8 2)]
    = Some (Done (true, s'))
    /\ In (Z3_mk_not (Z3_mk_eq (bv_const "y" 8) (bv_val 0 8))) (solver_ s')
    /\ ref_eval m63 (bv_const "y" 8) <> bv_val 0 8.
Proof.
  eexists. split; [reflexivity |].
  destruct (signed_division_guarded ref_width ref_axioms ref_tc ref_tc_error
              ref_show ref_model (ref_check m63) never ref_eval
              {| error_ := ""; model_ := None; stop_now_ := false;
                 solver_ := []; loads_ := 0 |}
              [SymBoolEq (SymBitVectorSignDiv x8 y8) (c8 2)] _
              (ref_sound m63) ref_not_eq eq_refl)
    as (_ & m & Hm & _ & Hall).
  destruct (Hall _ (or_introl eq_refl) y8 (or_introl eq_refl))
    as (_ & tb & Htb & Hin & Hne).
  inversion Htb; subst tb. inversion Hm; subst m.
  split; assumption.
Defined.

(** The same constraint with the candidate model x = 255, y = 0: the guard
    is false in it, the reference solver answers [unknown]. *)
Lemma is_sat_classifies_witness :
  exists s1 s',
    reaches_solver ref_width ref_axioms ref_tc ref_tc_error ref_show ref_model
      never
      {| error_ := ""; model_ := None; stop_now_ := false; solver_ := [];
         loads_ := 0 |}
      [SymBoolEq (SymBitVectorSignDiv x8 y8) (c8 2)] s1
    /\ ref_check m_y0 (solver_ s1) = unknown
    /\ is_sat ref_width ref_axioms ref_tc ref_tc_error ref_show ref_model
         (ref_check m_y0) never
         {| error_ := ""; model_ := None; stop_now_ := false; solver_ := [];
            loads_ := 0 |}
         [SymBoolEq (SymBitVectorSignDiv x8 y8) (c8 2)]
       = Some (Done (false, s'))
    /\ model_ s' = None /\ error_ s' = "z3 gave up.".
Proof.
  eassert (Hr : reaches_solver ref_width ref_axioms ref_tc ref_tc_error
                  ref_show ref_model never
                  {| error_ := ""; model_ := None; stop_now_ := false;
                     solver_ := []; loads_ := 0 |}
                  [SymBoolEq (SymBitVectorSignDiv x8 y8) (c8 2)] _).
  { eexists. split; [reflexivity | split; reflexivity]. }
  destruct (is_sat_classifies ref_width ref_axioms ref_tc ref_tc_error
              ref_show ref_model (ref_check m_y0) never _ _ _ Hr)
    as (_ & _ & Hunknown & _).
  destruct (Hunknown eq_refl) as (s' & Hs & Hm & He).
  eexists. exists s'. split; [exact Hr |]. split; [reflexivity |].
  split; [exact Hs |]. split; assumption.
Defined.

(** C3 as stated fails: with the flag set before the call and nobody
    setting it during the call, [is_sat] on x / y = 2 clears the flag, runs
    and returns [true]. *)
Lemma is_sat_interrupt_counterexample :
  ~ (forall (s : Z3Solver ref_model) (constraints : list SymBool),
       stop_now_ s = true -> constraints <> [] ->
       exists s',
         is_sat ref_width ref_axioms ref_tc ref_tc_error ref_show ref_model
           (ref_check m63) never s constraints
         = Some (Done (false, s'))
         /\ error_ s' = "External interrupt.").
Proof.
  intros H.
  destruct (H {| error_ := ""; model_ := None; stop_now_ := true;
                 solver_ := []; loads_ := 0 |}
              [SymBoolEq (SymBitVectorSignDiv x8 y8) (c8 2)]
              eq_refl ltac:(discriminate)) as (s' & Hs & _).
  vm_compute in Hs. discriminate Hs.
Qed.

(** Another thread sets the flag after the first load of the call: the
    second load, before the first constraint is lowered, ends the call. *)
Lemma is_sat_interrupt_witness :
  exists s',
    is_sat ref_width ref_axioms ref_tc ref_tc_error ref_show ref_model
      (ref_check m63) (fun k => Nat.eqb k 1)
      {| error_ := ""; model_ := None; stop_now_ := true; solver_ := [];
         loads_ := 0 |}
      [SymBoolEq (SymBitVectorSignDiv x8 y8) (c8 2)]
    = Some (Done (false, s'))
    /\ error_ s' = "External interrupt." /\ model_ s' = None
    /\ loads_ s' = 2%nat /\ solver_ s' = [].
Proof.
  eexists. split; [reflexivity |].
  destruct (is_sat_interrupt ref_width ref_axioms ref_tc ref_tc_error
              ref_show ref_model (ref_check m63) (fun k => Nat.eqb k 1)
              {| error_ := ""; model_ := None; stop_now_ := true;
                 solver_ := []; loads_ := 0 |}
              [SymBoolEq (SymBitVectorSignDiv x8 y8) (c8 2)])
    as (_ & Hstop & _).
  destruct (Hstop false _ eq_refl 1%nat ltac:(simpl; lia) eq_refl)
    as (_ & He & Hm & Hl).
  split; [exact He |]. split; [exact Hm |]. split; [exact Hl | reflexivity].
Defined.

Lemma split_constraints_flattens_witness :
  In SymBoolTrue
    (split_constraints
       [SymBoolAnd (SymBoolAnd (SymBoolVar "p") (SymBoolVar "q"))
          (SymBoolVar "r");
        SymBoolTrue])
  /\ split_constraints
       [SymBoolAnd (SymBoolAnd (SymBoolVar "p") (SymBoolVar "q"))
          (SymBoolVar "r");
        SymBoolTrue]
     = [SymBoolVar "p"; SymBoolVar "q"; SymBoolVar "r"; SymBoolTrue].
Proof.
  destruct (split_constraints_flattens
              [SymBoolAnd (SymBoolAnd (SymBoolVar "p") (SymBoolVar "q"))
                 (SymBoolVar "r");
               SymBoolTrue]) as (_ & _ & Hpass & _).
  split; [| reflexivity].
  apply Hpass; [right; left; reflexivity | reflexivity].
Defined.

(** Two stores over the constant array 0, at distinct addresses. *)
Lemma get_model_array_store_chain_witness :
  exists mapping,
    get_model_array ref_model
      (always (store_chain 64 8 (Z3_mk_const_array (bv_val 0 8))
                 [(16, 170); (32, 187)]))
      ref_func_interp ref_uint8
      {| error_ := ""; model_ := Some []; stop_now_ := false; solver_ := [];
         loads_ := 0 |}
      "mem" 64 8
    = Done (mapping, 0, [])
    /\ NoDup (map fst [(16, 170); (32, 187)])
    /\ mapping !! 16 = Some {| num_bits := 8; fixed_bytes := [170] |}
    /\ mapping !! 32 = Some {| num_bits := 8; fixed_bytes := [187] |}
    /\ mapping !! 17 = None.
Proof.
  assert (Hnd : NoDup (map fst [(16, 170); (32, 187)])).
  { apply NoDup_cons. split; [| apply NoDup_cons; split; [| apply NoDup_nil_2]].
    - intros H. apply list_elem_of_In in H. simpl in H.
      destruct H as [H | []]. discriminate H.
    - intros H. apply list_elem_of_In in H. destruct H. }
  destruct (get_model_array_store_chain ref_model
              (always (store_chain 64 8 (Z3_mk_const_array (bv_val 0 8))
                 [(16, 170); (32, 187)]))
              ref_func_interp ref_uint8
              {| error_ := ""; model_ := Some []; stop_now_ := false;
                 solver_ := []; loads_ := 0 |}
              [] "mem" 64 8 [(16, 170); (32, 187)] 0
              eq_refl eq_refl
              ltac:(repeat constructor; simpl; lia) ltac:(lia))
    as (Hrun & Hall).
  destruct (Hall _ _ _ Hrun) as (_ & _ & _ & Hother & _ & _ & Hpairs).
  eexists. split; [exact Hrun |]. split; [exact Hnd |].
  split; [apply (Hpairs Hnd); left; reflexivity |].
  split; [apply (Hpairs Hnd); right; left; reflexivity |].
  apply Hother. simpl. intros [H | [H | []]]; discriminate H.
Defined.



(** C7 as stated fails: on a quantification over four variables [is_sat]
    does not return [false] with an error, it fails the assertion. *)
Lemma forall_lowering_counterexample :
  is_sat ref_width ref_axioms ref_tc ref_tc_error ref_show ref_model
    (ref_check m63) never
    {| error_ := ""; model_ := None; stop_now_ := false; solver_ := [];
       loads_ := 0 |}
    [SymBoolForAll
       [{| name_ := "a"; size_ := 8 |}; {| name_ := "b"; size_ := 8 |};
        {| name_ := "c"; size_ := 8 |}; {| name_ := "d"; size_ := 8 |}]
       SymBoolTrue]
  = Some (Halt assertion_failed)
  /\ ~ (exists s',
          is_sat ref_width ref_axioms ref_tc ref_tc_error ref_show ref_model
            (ref_check m63) never
            {| error_ := ""; model_ := None; stop_now_ := false;
               solver_ := []; loads_ := 0 |}
            [SymBoolForAll
               [{| name_ := "a"; size_ := 8 |}; {| name_ := "b"; size_ := 8 |};
                {| name_ := "c"; size_ := 8 |}; {| name_ := "d"; size_ := 8 |}]
               SymBoolTrue]
          = Some (Done (false, s')) /\ error_ s' <> "").
Proof.
  split; [reflexivity |].
  intros (s' & Hs & _). vm_compute in Hs. discriminate Hs.
Qed.

Lemma forall_lowering_witness :
  visit_bool ref_width
    (SymBoolForAll [{| name_ := "a"; size_ := 8 |}] SymBoolTrue)
    {| ec_error_ := ""; constraints_ := [] |}
  = Done (Z3_forall [bv_const "a" 8] Z3_mk_true,
          {| ec_error_ := ""; constraints_ := [] |})
  /\ exists why,
       is_sat ref_width ref_axioms ref_tc ref_tc_error ref_show ref_model
         (ref_check m63) never
         {| error_ := ""; model_ := None; stop_now_ := false; solver_ := [];
            loads_ := 0 |}
         [SymBoolForAll
            [{| name_ := "a"; size_ := 8 |}; {| name_ := "b"; size_ := 8 |};
             {| name_ := "c"; size_ := 8 |}; {| name_ := "d"; size_ := 8 |}]
            SymBoolTrue]
       = Some (Halt why).
Proof.
  split.
  - destruct (forall_lowering ref_width ref_axioms ref_tc ref_tc_error
                ref_show ref_model (ref_check m63) never
                [{| name_ := "a"; size_ := 8 |}] SymBoolTrue)
      as (Hsmall & _).
    apply (Hsmall _ _ _ eq_refl). simpl. lia.
  - destruct (forall_lowering ref_width ref_axioms ref_tc ref_tc_error
                ref_show ref_model (ref_check m63) never
                [{| name_ := "a"; size_ := 8 |}; {| name_ := "b"; size_ := 8 |};
                 {| name_ := "c"; size_ := 8 |}; {| name_ := "d"; size_ := 8 |}]
                SymBoolTrue)
      as (_ & _ & Hsat).
    destruct (Hsat {| error_ := ""; model_ := None; stop_now_ := false;
                      solver_ := []; loads_ := 0 |}
                [SymBoolForAll
                   [{| name_ := "a"; size_ := 8 |};
                    {| name_ := "b"; size_ := 8 |};
                    {| name_ := "c"; size_ := 8 |};
                    {| name_ := "d"; size_ := 8 |}]
                   SymBoolTrue]
                ltac:(right; simpl; lia) (or_introl eq_refl))
      as (_ & Hhalt).
    apply Hhalt; reflexivity.
Defined.

(** A 128-bit value is rebuilt from two windows of 64 bits. *)
Lemma get_model_bv_little_endian_witness :
  128 mod 8 = 0
  /\ get_model_bv ref_model ref_eval
       {| error_ := "";
          model_ := Some [("v", 0x0123456789abcdeffedcba9876543210)];
          stop_now_ := false; solver_ := []; loads_ := 0 |}
       "v" 128
     = Done {| num_bits := 128;
               fixed_bytes :=
                 [0x10; 0x32; 0x54; 0x76; 0x98; 0xba; 0xdc; 0xfe;
                  0xef; 0xcd; 0xab; 0x89; 0x67; 0x45; 0x23; 0x01] |}.
Proof.
  split; [reflexivity |].
  destruct (get_model_bv_little_endian ref_model ref_eval
              {| error_ := "";
                 model_ := Some [("v", 0x0123456789abcdeffedcba9876543210)];
                 stop_now_ := false; solver_ := []; loads_ := 0 |}
              [("v", 0x0123456789abcdeffedcba9876543210)] "v" 128
              (ref_value [("v", 0x0123456789abcdeffedcba9876543210)] "v"
               mod 2 ^ 128)
              eq_refl ltac:(lia) eq_refl (ref_windows _ _ _))
    as (Hrun & _).
  rewrite Hrun. reflexivity.
Defined.

(** x udiv y = 255 with the model x = 255, y = 0: no guard is asserted and
    the model that gives the divisor the value 0 is accepted. *)
Lemma only_signed_division_is_guarded_witness :
  exists s',
    is_sat ref_width ref_axioms ref_tc ref_tc_error ref_show ref_model
      (ref_check m_y0) never
      {| error_ := ""; model_ := None; stop_now_ := false; solver_ := [];
         loads_ := 0 |}
      [SymBoolEq (SymBitVectorDiv x8 y8) (c8 255)]
    = Some (Done (true, s'))
    /\ model_ s' = Some m_y0
    /\ solver_ s'
       = [Z3_mk_eq (Z3_mk_bvudiv (bv_const "x" 8) (bv_const "y" 8))
            (bv_val 255 8)]
    /\ ref_value m_y0 "y" = 0.
Proof.
  destruct (only_signed_division_is_guarded ref_width ref_axioms ref_tc
              ref_tc_error ref_show ref_model (ref_check m_y0) never)
    as (_ & _ & _ & _ & Hplain).
  destruct (Hplain
              {| error_ := ""; model_ := None; stop_now_ := false;
                 solver_ := []; loads_ := 0 |}
              [SymBoolEq (SymBitVectorDiv x8 y8) (c8 255)]
              [Z3_mk_eq (Z3_mk_bvudiv (bv_const "x" 8) (bv_const "y" 8))
                 (bv_val 255 8)]
              m_y0 (fun k => eq_refl)
              ltac:(cbv; discriminate)
              ltac:(repeat constructor)
              ltac:(intros c [<- | []]; reflexivity)
              eq_refl)
    as (s' & Hs & Hm & Hsol).
  exists s'. split; [exact Hs |]. split; [exact Hm |].
  split; [exact Hsol | reflexivity].
Defined.

Lemma is_sat_true_iff_model_witness :
  exists s',
    is_sat ref_width ref_axioms ref_tc ref_tc_error ref_show ref_model
      (ref_check m63) never
      {| error_ := "z3 gave up."; model_ := Some m_y0; stop_now_ := true;
         solver_ := [Z3_mk_false]; loads_ := 7 |}
      [SymBoolEq (SymBitVectorSignDiv x8 y8) (c8 2)]
    = Some (Done (true, s'))
    /\ model_ s' = Some m63 /\ error_ s' = "".
Proof.
  eexists. split; [reflexivity |].
  destruct (is_sat_true_iff_model ref_width ref_axioms ref_tc ref_tc_error
              ref_show ref_model (ref_check m63) never
              {| error_ := "z3 gave up."; model_ := Some m_y0;
                 stop_now_ := true; solver_ := [Z3_mk_false]; loads_ := 7 |}
              [SymBoolEq (SymBitVectorSignDiv x8 y8) (c8 2)])
    as (_ & _ & Hret).
  destruct (Hret true _ eq_refl) as (_ & _ & Hmodel).
  destruct (Hmodel eq_refl) as (m & Hm & Hc).
  split; [| reflexivity].
  rewrite Hm. f_equal. vm_compute in Hc. now inversion Hc.
Defined.

(** * Examples for the further properties *)

Lemma lowering_completes_iff_witness :
  supported_bool (SymBoolEq (SymBitVectorSignDiv x8 y8) (c8 2)) = true
  /\ exists t ec',
       visit_bool ref_width (SymBoolEq (SymBitVectorSignDiv x8 y8) (c8 2))
         {| ec_error_ := ""; constraints_ := [] |}
       = Done (t, ec').
Proof.
  split; [reflexivity |].
  apply (lowering_completes_iff ref_width). reflexivity.
Defined.

Lemma is_sat_asserts_only_witness :
  exists s1 c,
    reaches_solver ref_width ref_axioms ref_tc ref_tc_error ref_show ref_model
      never
      {| error_ := ""; model_ := None; stop_now_ := false; solver_ := [];
         loads_ := 0 |}
      [SymBoolEq (SymBitVectorSignDiv x8 y8) (c8 2)] s1
    /\ In (Z3_mk_not (Z3_mk_eq (bv_const "y" 8) (bv_val 0 8))) (solver_ s1)
    /\ term_of ref_width c
       = Some (Z3_mk_not (Z3_mk_eq (bv_const "y" 8) (bv_val 0 8)))
    /\ ref_tc c = 1.
Proof.
  eassert (Hr : reaches_solver ref_width ref_axioms ref_tc ref_tc_error
                  ref_show ref_model never
                  {| error_ := ""; model_ := None; stop_now_ := false;
                     solver_ := []; loads_ := 0 |}
                  [SymBoolEq (SymBitVectorSignDiv x8 y8) (c8 2)] _).
  { eexists. split; [reflexivity | split; reflexivity]. }
  destruct (is_sat_asserts_only ref_width ref_axioms ref_tc ref_tc_error
              ref_show ref_model never _ _ _ Hr
              (Z3_mk_not (Z3_mk_eq (bv_const "y" 8) (bv_val 0 8)))
              (or_intror (or_introl eq_refl)))
    as (c & Ht & Htc & _).
  eexists. exists c. split; [exact Hr |].
  split; [right; left; reflexivity |]. split; assumption.
Defined.

(** [true], [false], p with a type checker that rejects [false]. *)
Lemma is_sat_typecheck_failure_witness :
  exists s',
    is_sat ref_width ref_axioms tc_no_false ref_tc_error ref_show ref_model
      (ref_check m63) never
      {| error_ := ""; model_ := None; stop_now_ := false; solver_ := [];
         loads_ := 0 |}
      [SymBoolTrue; SymBoolFalse; SymBoolVar "p"]
    = Some (Done (false, s'))
    /\ error_ s' = typecheck_message ref_tc_error ref_show SymBoolFalse
    /\ model_ s' = None /\ solver_ s' = [Z3_mk_true].
Proof.
  apply (is_sat_typecheck_failure ref_width ref_axioms tc_no_false
           ref_tc_error ref_show ref_model (ref_check m63) never _
           [SymBoolTrue; SymBoolFalse; SymBoolVar "p"]
           [SymBoolTrue] [Z3_mk_true] SymBoolFalse [SymBoolVar "p"]).
  - reflexivity.
  - reflexivity.
  - repeat constructor.
  - discriminate.
Defined.

Lemma is_sat_error_messages_witness :
  exists s',
    is_sat ref_width ref_axioms ref_tc ref_tc_error ref_show ref_model
      (ref_check m_y0) never
      {| error_ := ""; model_ := None; stop_now_ := false; solver_ := [];
         loads_ := 0 |}
      [SymBoolEq (SymBitVectorSignDiv x8 y8) (c8 2)]
    = Some (Done (false, s'))
    /\ (error_ s' = ""
        \/ error_ s' = "External interrupt."
        \/ (exists it,
              ref_tc it <> 1 /\
              error_ s' = typecheck_message ref_tc_error ref_show it)
        \/ error_ s' = "z3 gave up."
        \/ error_ s' = "Z3 encountered error: std::exception" +:+ endl).
Proof.
  eexists. split; [reflexivity |].
  destruct (is_sat_error_messages ref_width ref_axioms ref_tc ref_tc_error
              ref_show ref_model (ref_check m_y0) never
              {| error_ := ""; model_ := None; stop_now_ := false;
                 solver_ := []; loads_ := 0 |}
              [SymBoolEq (SymBitVectorSignDiv x8 y8) (c8 2)] false _ eq_refl)
    as ([(Ht & _) | (_ & Hmsg)] & _); [discriminate Ht | exact Hmsg].
Defined.

Lemma decode_after_false_witness :
  exists s',
    is_sat ref_width ref_axioms ref_tc ref_tc_error ref_show ref_model
      (ref_check m_y0) never
      {| error_ := ""; model_ := None; stop_now_ := false; solver_ := [];
         loads_ := 0 |}
      [SymBoolEq (SymBitVectorSignDiv x8 y8) (c8 2)]
    = Some (Done (false, s'))
    /\ get_model_bool ref_model ref_eval s' "p" = Halt null_dereference
    /\ get_model_bv ref_model ref_eval s' "x" 8 = Halt null_dereference.
Proof.
  eexists. split; [reflexivity |].
  destruct (decode_after_false ref_width ref_axioms ref_tc ref_tc_error
              ref_show ref_model (ref_check m_y0) never ref_eval
              ref_func_interp ref_uint8
              {| error_ := ""; model_ := None; stop_now_ := false;
                 solver_ := []; loads_ := 0 |}
              [SymBoolEq (SymBitVectorSignDiv x8 y8) (c8 2)] _
              "p" 64 8 8 eq_refl) as (Hbool & _ & Hbv).
  split; [exact Hbool |].
  destruct (decode_after_false ref_width ref_axioms ref_tc ref_tc_error
              ref_show ref_model (ref_check m_y0) never ref_eval
              ref_func_interp ref_uint8
              {| error_ := ""; model_ := None; stop_now_ := false;
                 solver_ := []; loads_ := 0 |}
              [SymBoolEq (SymBitVectorSignDiv x8 y8) (c8 2)] _
              "x" 64 8 8 eq_refl) as (_ & _ & Hx).
  apply Hx. lia.
Defined.

Lemma asserted_variable_decodes_true_witness :
  exists s',
    is_sat ref_width ref_axioms ref_tc ref_tc_error ref_show ref_model
      (sat_with m63) never
      {| error_ := ""; model_ := None; stop_now_ := false; solver_ := [];
         loads_ := 0 |}
      [SymBoolVar "p"]
    = Some (Done (true, s'))
    /\ get_model_bool ref_model (always Z3_mk_true) s' "p" = Done (true, s').
Proof.
  eexists. split; [reflexivity |].
  apply (asserted_variable_decodes_true ref_width ref_axioms ref_tc
           ref_tc_error ref_show ref_model (sat_with m63) never
           (always Z3_mk_true)
           {| error_ := ""; model_ := None; stop_now_ := false;
              solver_ := []; loads_ := 0 |}
           [SymBoolVar "p"]).
  - intros assertions m _ t _. reflexivity.
  - reflexivity.
  - left. reflexivity.
Defined.

(** Address 1 is stored to twice: 5 by the inner store, 7 by the outer. *)
Lemma get_model_array_inner_store_witness :
  exists mapping,
    get_model_array ref_model
      (always (store_chain 64 8 (Z3_mk_const_array (bv_val 0 8))
                 [(1, 7); (1, 5)]))
      ref_func_interp ref_uint8
      {| error_ := ""; model_ := Some []; stop_now_ := false; solver_ := [];
         loads_ := 0 |}
      "mem" 64 8
    = Done (mapping, 0, [])
    /\ mapping !! 1 = Some (byte_bv 5).
Proof.
  apply (get_model_array_inner_store ref_model
           (always (store_chain 64 8 (Z3_mk_const_array (bv_val 0 8))
                      [(1, 7); (1, 5)]))
           ref_func_interp ref_uint8
           {| error_ := ""; model_ := Some []; stop_now_ := false;
              solver_ := []; loads_ := 0 |}
           [] "mem" 64 8 [(1, 7)] [] 1 5 0).
  - reflexivity.
  - reflexivity.
  - repeat constructor; simpl; lia.
  - reflexivity.
  - lia.
  - intros [].
Defined.

(** A store to address 1 over a function with entries for 1 and 2. *)
Lemma get_model_array_as_array_witness :
  get_model_array ref_model
    (always (store_chain 64 8 (Z3_as_array mem_fd) [(1, 5)]))
    mem_interp ref_uint8
    {| error_ := ""; model_ := Some []; stop_now_ := false; solver_ := [];
       loads_ := 0 |}
    "mem" 64 8
  = Done (recorded [(1, 9); (2, 8)] (recorded [(1, 5)] ∅), 1, [])
  /\ recorded [(1, 9); (2, 8)] (recorded [(1, 5)] (∅ : gmap Z BitVector)) !! 1
     = Some (byte_bv 9).
Proof.
  destruct (get_model_array_as_array ref_model
              (always (store_chain 64 8 (Z3_as_array mem_fd) [(1, 5)]))
              mem_interp ref_uint8
              {| error_ := ""; model_ := Some []; stop_now_ := false;
                 solver_ := []; loads_ := 0 |}
              [] "mem" 64 8 [(1, 5)] [(1, 9); (2, 8)] mem_fd
              eq_refl eq_refl eq_refl
              ltac:(repeat constructor; simpl; lia) eq_refl
              ltac:(repeat constructor; simpl; lia) eq_refl)
    as (Hrun & Hent & _).
  { apply NoDup_cons. split; [| apply NoDup_cons; split; [| apply NoDup_nil_2]].
    - intros H. apply list_elem_of_In in H. simpl in H.
      destruct H as [H | []]. discriminate H.
    - intros H. apply list_elem_of_In in H. destruct H. }
  split; [exact Hrun |]. apply Hent. left. reflexivity.
Defined.

Lemma get_model_bv_unaligned_witness :
  exists why,
    get_model_bv ref_model ref_eval
      {| error_ := ""; model_ := Some [("v", 5)]; stop_now_ := false;
         solver_ := []; loads_ := 0 |}
      "v" 12
    = Halt why.
Proof.
  apply (get_model_bv_unaligned ref_model ref_eval); [lia | | ];
    discriminate.
Defined.

(** A vector of 127 bits: the second window asks for bits 64 to 127. *)
Lemma get_model_bv_extract_refused_witness :
  (exists why,
     get_model_bv ref_model ref_eval
       {| error_ := ""; model_ := Some [("v", 5)]; stop_now_ := false;
          solver_ := []; loads_ := 0 |}
       "v" 127
     = Halt why)
  /\ max_bits_of 127 1 = 127.
Proof.
  destruct (get_model_bv_extract_refused ref_model ref_eval
              {| error_ := ""; model_ := Some [("v", 5)]; stop_now_ := false;
                 solver_ := []; loads_ := 0 |}
              "v" 127 ltac:(lia) eq_refl) as (Hhalt & _ & Hmax & _).
  split; [exact Hhalt | exact Hmax].
Defined.

Lemma get_model_bv_value_witness :
  exists r,
    get_model_bv ref_model ref_eval
      {| error_ := "";
         model_ := Some [("v", 0x0123456789abcdeffedcba9876543210)];
         stop_now_ := false; solver_ := []; loads_ := 0 |}
      "v" 128
    = Done r
    /\ le_value (fixed_bytes r) = 0x0123456789abcdeffedcba9876543210.
Proof.
  destruct (get_model_bv_value ref_model ref_eval
              {| error_ := "";
                 model_ := Some [("v", 0x0123456789abcdeffedcba9876543210)];
                 stop_now_ := false; solver_ := []; loads_ := 0 |}
              [("v", 0x0123456789abcdeffedcba9876543210)] "v" 128
              (ref_value [("v", 0x0123456789abcdeffedcba9876543210)] "v"
               mod 2 ^ 128)
              eq_refl ltac:(lia) eq_refl (ref_windows _ _ _))
    as (r & Hrun & _ & _ & Hval).
  exists r. split; [exact Hrun |]. rewrite Hval. reflexivity.
Defined.
